(** * Willwi Music visualizer: the real-time compositor

    A shallow embedding of [components/Visualizer.tsx] (easing functions,
    the [Particle] class, the per-frame [animate] callback and the codec
    negotiation of [startRecording]) together with the properties of the
    design document that concern them.

    Number model.  A JavaScript [number] is embedded as an exact rational
    [Q]: comparisons, sums, products and quotients are the mathematical
    ones and rounding is not represented.  Division by zero, which
    JavaScript answers with an infinity or NaN, is 0 in [Q]; the
    properties below divide only by quantities that are not zero.  The
    canvas and its 2D context are taken to exist (the two early returns
    of [animate] are left out).  The platform functions
    [Math.sin], [Math.cos], [Math.PI], [Math.random] and
    [MediaRecorder.isTypeSupported] are not part of the repository; they
    are parameters of the development, and so is what the
    [MediaRecorder] constructor answers.  The [Blob] constructor is
    embedded with the normalisation of its type that the File API
    prescribes. *)

From Stdlib Require Import QArith Qminmax Qround Qabs Lia Lqa String Ascii List Bool.
From Stdlib Require Import Strings.Byte DecimalString DecimalNat.
From stdpp Require Import base list gmap strings.

Local Open Scope Q_scope.

(** ** Comparisons on numbers, as booleans *)

Definition Qlt_bool (a b : Q) : bool := negb (Qle_bool b a).
Definition Qgt_bool (a b : Q) : bool := Qlt_bool b a.
Definition Qge_bool (a b : Q) : bool := Qle_bool b a.

Infix "<?" := Qlt_bool (at level 70) : Q_scope.
Infix "<=?" := Qle_bool (at level 70) : Q_scope.
Infix ">?" := Qgt_bool (at level 70) : Q_scope.
Infix ">=?" := Qge_bool (at level 70) : Q_scope.

(** [a || b] on numbers: [b] when [a] is falsy, that is, zero. *)
Definition num_or (a b : Q) : Q := if Qeq_bool a 0 then b else a.

(** [a ?? b] on an optional number. *)
Definition nullish (a : option Q) (b : Q) : Q :=
  match a with Some v => v | None => b end.

(** ** types.ts *)

Record LyricLine := {
  id : string;
  startTime : Q;
  endTime : Q;
  text : string;
  translation : option string
}.

Inductive ThemeStyle := NEON | MINIMAL | NATURE | FIERY.

Inductive AnimationType :=
  FADE | SLIDE_UP | ZOOM | BOUNCE | TYPEWRITER | KINETIC | REVEAL | WAVE.

Inductive ParticleStyle :=
  STANDARD | COSMOS | OCEAN | GEOMETRIC | MUSICAL | SNOW.

Inductive BackgroundMode := COLOR | IMAGE | VIDEO.

Record VisualSettings := {
  primaryColor : string;
  secondaryColor : string;
  backgroundColor : string;
  particleCount : Q;
  particleSpeed : option Q;
  particleSize : option Q;
  beatSensitivity : Q;
  backgroundMode : BackgroundMode;
  backgroundVideo : option string;
  backgroundBrightness : option Q;
  animationType : AnimationType;
  transitionDuration : Q;
  particleStyle : ParticleStyle
}.

Definition ParticleStyle_eqb (a b : ParticleStyle) : bool :=
  match a, b with
  | STANDARD, STANDARD | COSMOS, COSMOS | OCEAN, OCEAN
  | GEOMETRIC, GEOMETRIC | MUSICAL, MUSICAL | SNOW, SNOW => true
  | _, _ => false
  end.

(** ** Easing functions *)

Definition easeOutCubic (x : Q) : Q := 1 - (1 - x) ^ 3.

Definition easeOutBack (x : Q) : Q :=
  let c1 := 1.70158 in
  let c3 := c1 + 1 in
  1 + c3 * (x - 1) ^ 3 + c1 * (x - 1) ^ 2.

(** Reference definitions, as the design document words them. *)
Module Reference.

Definition c1 : Q := 1.70158.
Definition c3 : Q := c1 + 1.

Definition easeOutCubic (x : Q) : Q := 1 - (1 - x) * (1 - x) * (1 - x).

Definition easeInOutSine (cos : Q -> Q) (pi x : Q) : Q :=
  - (cos (pi * x) - 1) / 2.

Definition easeOutBack (x : Q) : Q :=
  1 + c3 * ((x - 1) * (x - 1) * (x - 1)) + c1 * ((x - 1) * (x - 1)).

End Reference.

(** ** The platform

    [Math_random n] is the value returned by the [n]-th call of
    [Math.random()]. *)

Record Platform := {
  Math_sin : Q -> Q;
  Math_cos : Q -> Q;
  Math_PI : Q;
  Math_random : nat -> Q;
  isTypeSupported : string -> bool
}.

(** A computation that draws random numbers threads the call counter. *)

Definition Rand (A : Type) : Type := nat -> A * nat.

Definition ret {A} (a : A) : Rand A := fun n => (a, n).

Definition bind {A B} (c : Rand A) (k : A -> Rand B) : Rand B :=
  fun n => let '(a, n') := c n in k a n'.

Notation "'do' x <- c ; k" := (bind c (fun x => k))
  (at level 10, x name, c at level 100, k at level 200).

Definition random (M : Platform) : Rand Q := fun n => (Math_random M n, S n).

Definition easeInOutSine (M : Platform) (x : Q) : Q :=
  - (Math_cos M (Math_PI M * x) - 1) / 2.

(** ** class Particle *)

Module Particle.

Record t := mk {
  x : Q;
  y : Q;
  vx : Q;
  vy : Q;
  size : Q;
  color : string;
  life : Q;
  maxLife : Q;
  style : ParticleStyle;
  angle : Q;
  rotationSpeed : Q;
  type : Z
}.

Definition set_x (p : t) (v : Q) : t :=
  mk v (y p) (vx p) (vy p) (size p) (color p) (life p) (maxLife p)
     (style p) (angle p) (rotationSpeed p) (type p).
Definition set_y (p : t) (v : Q) : t :=
  mk (x p) v (vx p) (vy p) (size p) (color p) (life p) (maxLife p)
     (style p) (angle p) (rotationSpeed p) (type p).
Definition set_vx (p : t) (v : Q) : t :=
  mk (x p) (y p) v (vy p) (size p) (color p) (life p) (maxLife p)
     (style p) (angle p) (rotationSpeed p) (type p).
Definition set_vy (p : t) (v : Q) : t :=
  mk (x p) (y p) (vx p) v (size p) (color p) (life p) (maxLife p)
     (style p) (angle p) (rotationSpeed p) (type p).
Definition set_life (p : t) (v : Q) : t :=
  mk (x p) (y p) (vx p) (vy p) (size p) (color p) v (maxLife p)
     (style p) (angle p) (rotationSpeed p) (type p).
Definition set_angle (p : t) (v : Q) : t :=
  mk (x p) (y p) (vx p) (vy p) (size p) (color p) (life p) (maxLife p)
     (style p) v (rotationSpeed p) (type p).
Definition set_style (p : t) (s : ParticleStyle) : t :=
  mk (x p) (y p) (vx p) (vy p) (size p) (color p) (life p) (maxLife p)
     s (angle p) (rotationSpeed p) (type p).

Section Methods.

Variable M : Platform.

(** [new Particle(w, h, color, style, sizeMultiplier)] *)
Definition new (w h : Q) (color : string) (style : ParticleStyle)
    (sizeMultiplier : Q) : Rand t :=
  do r_x <- random M;
  do r_y <- random M;
  do r_maxLife <- random M;
  do r_angle <- random M;
  do r_rot <- random M;
  do r_type <- random M;
  let x0 := r_x * w in
  let y0 := r_y * h in
  let maxLife0 := r_maxLife * 100 + 100 in
  let angle0 := r_angle * Math_PI M * 2 in
  let rotationSpeed0 := (r_rot - 0.5) * 0.05 in
  let type0 := Qfloor (r_type * 3) in
  match style with
  | OCEAN =>
      do r1 <- random M; do r2 <- random M; do r3 <- random M;
      ret (mk x0 y0 ((r1 - 0.5) * 0.5) (- r2 * 1.5 - 0.2)
              ((r3 * 4 + 2) * sizeMultiplier)
              color 0 maxLife0 style angle0 rotationSpeed0 type0)
  | COSMOS =>
      do r1 <- random M; do r2 <- random M; do r3 <- random M;
      let baseSize := if Z.eqb type0 0 then r3 * 1.5 + 0.5 else r3 * 4 + 2 in
      do r4 <- random M;
      ret (mk x0 y0 ((r1 - 0.5) * 0.2) ((r2 - 0.5) * 0.2)
              (baseSize * sizeMultiplier)
              color 0 (r4 * 200 + 200) style angle0 rotationSpeed0 type0)
  | GEOMETRIC =>
      do r1 <- random M; do r2 <- random M; do r3 <- random M;
      do r4 <- random M;
      ret (mk x0 y0 ((r1 - 0.5) * 2) ((r2 - 0.5) * 2)
              ((r3 * 6 + 4) * sizeMultiplier)
              color 0 maxLife0 style angle0 ((r4 - 0.5) * 0.1) type0)
  | MUSICAL =>
      do r1 <- random M; do r2 <- random M; do r3 <- random M;
      do r4 <- random M;
      ret (mk x0 y0 ((r1 - 0.5) * 1) (- r2 * 1 - 0.2)
              ((r3 * 10 + 10) * sizeMultiplier)
              color 0 maxLife0 style angle0 ((r4 - 0.5) * 0.02) type0)
  | SNOW =>
      do r1 <- random M; do r2 <- random M; do r3 <- random M;
      ret (mk x0 y0 ((r1 - 0.5) * 0.5) (r2 * 2 + 1)
              ((r3 * 3 + 1) * sizeMultiplier)
              color 0 maxLife0 style angle0 rotationSpeed0 type0)
  | STANDARD =>
      do r1 <- random M; do r2 <- random M; do r3 <- random M;
      ret (mk x0 y0 ((r1 - 0.5) * 1) ((r2 - 0.5) * 1)
              ((r3 * 3 + 1) * sizeMultiplier)
              color 0 maxLife0 style angle0 rotationSpeed0 type0)
  end.

(** The first half of [update]: move, rotate, age. *)
Definition advance (p : t) (beatFactor speedFactor : Q) : t :=
  let moveX := vx p * speedFactor * beatFactor in
  let moveY := vy p * speedFactor * beatFactor in
  let p :=
    match style p with
    | OCEAN =>
        let p := set_x p (x p + (moveX + Math_sin M (life p * 0.05) * 0.5)) in
        set_y p (y p + moveY)
    | SNOW =>
        let p := set_x p (x p + (moveX + Math_sin M (life p * 0.05) * 0.5)) in
        set_y p (y p + moveY)
    | _ =>
        let p := set_x p (x p + moveX) in
        set_y p (y p + moveY)
    end in
  let p := set_angle p (angle p + rotationSpeed p * beatFactor * speedFactor) in
  set_life p (life p + 1).

(** The second half of [update]: wrap around or bounce, by style. *)
Definition boundary (p : t) (width height : Q) : Rand t :=
  match style p with
  | OCEAN | MUSICAL =>
      if y p <? -50 then
        let p := set_y p (height + 50) in
        do r <- random M;
        let p := set_x p (r * width) in
        ret (set_life p 0)
      else ret p
  | SNOW =>
      if y p >? height + 50 then
        let p := set_y p (-50) in
        do r <- random M;
        let p := set_x p (r * width) in
        ret (set_life p 0)
      else ret p
  | _ =>
      let p := if (x p <? 0) || (x p >? width)
               then set_vx p (vx p * -1) else p in
      let p := if (y p <? 0) || (y p >? height)
               then set_vy p (vy p * -1) else p in
      ret p
  end.

(** [update(width, height, beatFactor, speedFactor)] *)
Definition update (p : t) (width height beatFactor speedFactor : Q) : Rand t :=
  boundary (advance p beatFactor speedFactor) width height.

End Methods.

End Particle.

(** ** The Visualizer component *)

(** The analyser is created once, by [initAudio], with [fftSize = 256];
    [byteFrequencyData a i] is the magnitude of bin [i] at the time of
    the poll. *)
Record AnalyserNode := { byteFrequencyData : nat -> Z }.

Definition fftSize : nat := 256.
Definition frequencyBinCount (a : AnalyserNode) : nat := Nat.div fftSize 2.

(** [new Uint8Array(bufferLength)] filled by [getByteFrequencyData]. *)
Definition getByteFrequencyData (a : AnalyserNode) (bufferLength : nat) : list Z :=
  map (byteFrequencyData a) (seq 0 bufferLength).

(** [dataArray[i]] as a number; an index out of range yields [undefined],
    which no arithmetic of this model represents: [0] stands for it, and
    [dataArray_defined] shows that the loops below never read it. *)
Definition elem (dataArray : list Z) (i : nat) : Q :=
  match dataArray !! i with
  | Some v => inject_Z v
  | None => 0
  end.

Record HTMLVideoElement := {
  readyState : nat;
  videoWidth : Q;
  videoHeight : Q
}.

Record HTMLImageElement := {
  naturalWidth : Q;
  naturalHeight : Q
}.

Inductive MediaSource :=
| VideoSource (v : HTMLVideoElement)
| ImageSource (i : HTMLImageElement).

Inductive Phase := enter | active | exit.

(** What a frame does to the drawing surface, in order. *)
Inductive CanvasOp :=
| ClearRect (w h : Q)
| DrawImage (source : MediaSource) (brightness sx sy sWidth sHeight w h : Q)
| FillRect (fillStyle : string) (x y w h : Q)
| DrawParticle (p : Particle.t)
| DrawBar (fillStyle : string) (x y w h : Q)
| DrawLine (line : LyricLine) (phase : Phase) (progress : Q).

(** The refs of the component that [animate] reads. *)
Record Refs := {
  width : Q;
  height : Q;
  analyserRef : option AnalyserNode;
  bgVideoRef : HTMLVideoElement;
  bgImageRef : option HTMLImageElement
}.

(** [stateRef.current] *)
Record StateRef := {
  lyrics : list LyricLine;
  settings : VisualSettings;
  currentTime : Q
}.

(** What [animate] changes: the particle pool, the drawing surface and
    the number of [Math.random()] calls made so far. *)
Record Engine := {
  particlesRef : list Particle.t;
  ctx : list CanvasOp;
  rng : nat
}.

(** A string used as a condition: absent and empty strings are falsy. *)
Definition truthy (o : option string) : bool :=
  match o with
  | Some s => negb (String.eqb s EmptyString)
  | None => false
  end.

Definition is_VIDEO (m : BackgroundMode) : bool :=
  match m with VIDEO => true | _ => false end.
Definition is_IMAGE (m : BackgroundMode) : bool :=
  match m with IMAGE => true | _ => false end.

Section Animate.

Variable M : Platform.

(** *** Beat factor *)

Definition beatFactor (analyser : option AnalyserNode) (s : VisualSettings) : Q :=
  match analyser with
  | Some a =>
      let bufferLength := frequencyBinCount a in
      let dataArray := getByteFrequencyData a bufferLength in
      let sum := fold_left (fun sum i => sum + elem dataArray i) (seq 0 20) 0 in
      let average := sum / 20 in
      1 + (average / 255) * beatSensitivity s
  | None => 1.0
  end.

(** *** Background *)

Definition drawCover (brightness width height : Q) (source : MediaSource)
    (srcW srcH : Q) : list CanvasOp :=
  let targetRatio := width / height in
  let sourceRatio := srcW / srcH in
  let '(sx, sy, sWidth, sHeight) :=
    if sourceRatio >? targetRatio
    then ((srcW - srcH * targetRatio) / 2, 0, srcH * targetRatio, srcH)
    else (0, (srcH - srcW / targetRatio) / 2, srcW, srcW / targetRatio) in
  [ DrawImage source brightness sx sy sWidth sHeight width height;
    FillRect "rgba(0,0,0,0.4)" 0 0 width height ].

Definition drawBackground (r : Refs) (s : VisualSettings) : list CanvasOp :=
  let brightness := nullish (backgroundBrightness s) 1.0 in
  if is_VIDEO (backgroundMode s) && truthy (backgroundVideo s)
     && (2 <=? readyState (bgVideoRef r))%nat
  then drawCover brightness (width r) (height r)
         (VideoSource (bgVideoRef r))
         (videoWidth (bgVideoRef r)) (videoHeight (bgVideoRef r))
  else match is_IMAGE (backgroundMode s), bgImageRef r with
       | true, Some img =>
           drawCover brightness (width r) (height r)
             (ImageSource img) (naturalWidth img) (naturalHeight img)
       | _, _ => [ FillRect (backgroundColor s) 0 0 (width r) (height r) ]
       end.

(** *** Particles *)

Definition spawn (r : Refs) (s : VisualSettings) (e : Engine) : Engine :=
  if inject_Z (Z.of_nat (length (particlesRef e))) <? particleCount s then
    let '(p, n) :=
      (do c <- random M;
       Particle.new M (width r) (height r)
         (if c >? 0.5 then primaryColor s else secondaryColor s)
         (particleStyle s) (nullish (particleSize s) 1.0)) (rng e) in
    {| particlesRef := particlesRef e ++ [p]; ctx := ctx e; rng := n |}
  else e.

(** The test that guards [splice] in the [forEach] callback. *)
Definition removes (s : VisualSettings) (width height : Q) (p : Particle.t) : bool :=
  if (Particle.life p >=? Particle.maxLife p)
     || (Particle.y p <? -100) || (Particle.y p >? height + 100)
     || (Particle.x p <? -100) || (Particle.x p >? width + 100)
  then
    if negb (ParticleStyle_eqb (particleStyle s) OCEAN)
       && negb (ParticleStyle_eqb (particleStyle s) MUSICAL)
       && negb (ParticleStyle_eqb (particleStyle s) SNOW)
    then true
    else if Particle.life p >=? Particle.maxLife p then true
    else false
  else false.

(** The [forEach] callback, called on the element [p] found at [index];
    [p] is an object of the array, so [update] changes the array slot. *)
Definition visit (r : Refs) (s : VisualSettings) (beatFactor : Q)
    (p : Particle.t) (index : nat) (e : Engine) : Engine :=
  let '(p', n) :=
    Particle.update M p (width r) (height r) beatFactor
      (nullish (particleSpeed s) 1.0) (rng e) in
  let arr := <[index := p']> (particlesRef e) in
  let drawn := ctx e ++ [DrawParticle p'] in
  if removes s (width r) (height r) p'
  then {| particlesRef := delete index arr; ctx := drawn; rng := n |}
  else {| particlesRef := arr; ctx := drawn; rng := n |}.

(** [Array.prototype.forEach]: the indices [k], [k+1], ... up to the
    length the array had when the loop started; an index that is no
    longer in the array is passed over. *)
Fixpoint forEach_from (count k : nat)
    (callback : Particle.t -> nat -> Engine -> Engine) (e : Engine) : Engine :=
  match count with
  | O => e
  | S count' =>
      let e' := match particlesRef e !! k with
                | Some p => callback p k e
                | None => e
                end in
      forEach_from count' (S k) callback e'
  end.

Definition forEach (callback : Particle.t -> nat -> Engine -> Engine)
    (e : Engine) : Engine :=
  forEach_from (length (particlesRef e)) 0 callback e.

Definition particles (r : Refs) (s : VisualSettings) (beatFactor : Q)
    (e : Engine) : Engine :=
  forEach (visit r s beatFactor) (spawn r s e).

(** *** Audio bars *)

Fixpoint bars_from (dataArray : list Z) (color : string)
    (height barWidth beatFactor : Q) (i : nat) (barX : Q) (n : nat)
    : list CanvasOp :=
  match n with
  | O => []
  | S n' =>
      let barHeight := (elem dataArray i / 255) * (height / 3) * beatFactor in
      DrawBar color barX (height - barHeight) barWidth barHeight
      :: bars_from dataArray color height barWidth beatFactor
           (S i) (barX + (barWidth + 1)) n'
  end.

Definition audioBars (r : Refs) (s : VisualSettings) (beatFactor : Q)
    : list CanvasOp :=
  match analyserRef r with
  | Some a =>
      let bufferLength := frequencyBinCount a in
      let dataArray := getByteFrequencyData a bufferLength in
      let barWidth := (width r / inject_Z (Z.of_nat bufferLength)) * 2.5 in
      bars_from dataArray (secondaryColor s) (height r) barWidth beatFactor
        0 0 bufferLength
  | None => []
  end.

(** *** Lyric lines *)

(** The body of [lyrics.forEach]: the call of [drawLine] made for
    [line], if any. *)
Definition lyricCall (transitionDuration currentTime : Q) (line : LyricLine)
    : option (Phase * Q) :=
  let timeSinceStart := currentTime - startTime line in
  if (currentTime >=? startTime line) && (currentTime <? endTime line) then
    if timeSinceStart <? transitionDuration
    then Some (enter, timeSinceStart / transitionDuration)
    else Some (active, 1)
  else if (currentTime >=? endTime line)
          && (currentTime <? endTime line + transitionDuration) then
    let exitProgress := (currentTime - endTime line) / transitionDuration in
    Some (exit, exitProgress)
  else None.

Definition lyricLines (st : StateRef) : list CanvasOp :=
  let transitionDuration := num_or (transitionDuration (settings st)) 0.5 in
  flat_map (fun line =>
    match lyricCall transitionDuration (currentTime st) line with
    | Some (phase, progress) => [DrawLine line phase progress]
    | None => []
    end) (lyrics st).

(** *** The frame *)

Definition animate (r : Refs) (st : StateRef) (e : Engine) : Engine :=
  let s := settings st in
  let beatFactor := beatFactor (analyserRef r) s in
  let e := {| particlesRef := particlesRef e;
              ctx := ctx e ++ [ClearRect (width r) (height r)];
              rng := rng e |} in
  let e := {| particlesRef := particlesRef e;
              ctx := ctx e ++ drawBackground r s;
              rng := rng e |} in
  let e := particles r s beatFactor e in
  {| particlesRef := particlesRef e;
     ctx := ctx e ++ audioBars r s beatFactor ++ lyricLines st;
     rng := rng e |}.

(** The frame loop: [requestAnimationFrame(animate)] runs one frame after
    the other, each on the refs and the state it finds. *)
Fixpoint frames (inputs : list (Refs * StateRef)) (e : Engine) : Engine :=
  match inputs with
  | [] => e
  | (r, st) :: rest => frames rest (animate r st e)
  end.

End Animate.

(** *** drawLine: the KINETIC branch of the enter phase

    For the sub-line [txt], [chars.forEach] gives every character its own
    window of the enter progress; a character is drawn, scaled by
    [charScale], once its clamped progress is positive. *)

Inductive GlyphStrategy := Typewriter | Kinetic | Reveal | Wave | Plain.

(** The chain of conditions of [lines.forEach] in [drawLine]. *)
Definition glyphStrategy (phase : Phase) (animType : AnimationType)
    : GlyphStrategy :=
  match phase, animType with
  | enter, TYPEWRITER => Typewriter
  | enter, KINETIC => Kinetic
  | enter, REVEAL => Reveal
  | _, WAVE => Wave
  | _, _ => Plain
  end.

Definition kineticStartP (count idx : nat) : Q :=
  (inject_Z (Z.of_nat idx) / inject_Z (Z.of_nat count)) * 0.8.

Definition kineticEndP (count idx : nat) : Q := kineticStartP count idx + 0.3.

Definition kineticClampedP (count idx : nat) (progress : Q) : Q :=
  let startP := kineticStartP count idx in
  let endP := kineticEndP count idx in
  let p := (progress - startP) / (endP - startP) in
  Qmax 0 (Qmin 1 p).

Definition kineticChar (count : nat) (progress : Q) (idx : nat) (char : ascii)
    : option (ascii * Q) :=
  let clampedP := kineticClampedP count idx progress in
  if clampedP >? 0 then
    let charScale := easeOutBack clampedP in
    Some (char, charScale)
  else None.

Definition kinetic (txt : string) (progress : Q) : list (option (ascii * Q)) :=
  let chars := list_ascii_of_string txt in
  imap (kineticChar (length chars) progress) chars.

(** *** startRecording: codec negotiation *)

Record CodecType := { mime : string; ext : string }.

Definition types : list CodecType :=
  [ {| mime := "video/mp4"; ext := "mp4" |};
    {| mime := "video/webm;codecs=h264"; ext := "webm" |};
    {| mime := "video/webm;codecs=vp9"; ext := "webm" |};
    {| mime := "video/webm"; ext := "webm" |} ].

(** The pair [(mimeType, recordingExtRef.current)]. *)
Definition negotiate (M : Platform) : string * string :=
  let supported := find (fun t => isTypeSupported M (mime t)) types in
  let mimeType := match supported with
                  | Some t => mime t
                  | None => "video/webm"%string
                  end in
  let recordingExt := match supported with
                      | Some t => ext t
                      | None => "webm"%string
                      end in
  (mimeType, recordingExt).

(** ** Vocabulary of the properties *)

Definition wraparound (st : ParticleStyle) : bool :=
  match st with
  | OCEAN | MUSICAL | SNOW => true
  | _ => false
  end.

Definition expired (p : Particle.t) : Prop :=
  Particle.maxLife p <= Particle.life p.

Definition outOfBounds (width height : Q) (p : Particle.t) : Prop :=
  Particle.x p < -100 \/ width + 100 < Particle.x p \/
  Particle.y p < -100 \/ height + 100 < Particle.y p.

(** The removal policy of the design document, for a given style. *)
Definition removal_policy (st : ParticleStyle) (width height : Q)
    (p : Particle.t) : Prop :=
  if wraparound st then expired p
  else expired p \/ outOfBounds width height p.

(** A particle that may stay in the pool between two frames. *)
Definition alive (p : Particle.t) : Prop :=
  0 <= Particle.life p /\ Particle.life p < Particle.maxLife p.

(** Whether [update] resets the particle after moving it. *)
Definition wraps (p : Particle.t) (height : Q) : bool :=
  match Particle.style p with
  | OCEAN | MUSICAL => Particle.y p <? -50
  | SNOW => Particle.y p >? height + 50
  | _ => false
  end.

(** The [forEach] pass over the pool, by recursion on the pool: a
    particle that is removed lets its successor slide into its slot, and
    the loop, moving to the next index, passes over that successor.
    [forEach_sweep] below proves that this is what [forEach] computes. *)
Fixpoint sweep (M : Platform) (r : Refs) (s : VisualSettings) (beatFactor : Q)
    (pool : list Particle.t) (drawn : list CanvasOp) (n : nat) : Engine :=
  match pool with
  | [] => {| particlesRef := []; ctx := drawn; rng := n |}
  | p :: rest =>
      let '(p', n') :=
        Particle.update M p (width r) (height r) beatFactor
          (nullish (particleSpeed s) 1.0) n in
      let drawn' := drawn ++ [DrawParticle p'] in
      if removes s (width r) (height r) p' then
        match rest with
        | [] => {| particlesRef := []; ctx := drawn'; rng := n' |}
        | q :: rest' =>
            let e := sweep M r s beatFactor rest' drawn' n' in
            {| particlesRef := q :: particlesRef e; ctx := ctx e; rng := rng e |}
        end
      else
        let e := sweep M r s beatFactor rest drawn' n' in
        {| particlesRef := p' :: particlesRef e; ctx := ctx e; rng := rng e |}
  end.

(** What [draw] may be handed in a pool of [alive] particles. *)
Definition drawable (p : Particle.t) : Prop :=
  0 <= Particle.life p /\ Particle.life p < Particle.maxLife p + 1.

(** The average of the first twenty bins, as the design document words it. *)
Definition averageOfFirst20 (a : AnalyserNode) : Q :=
  fold_right Qplus 0
    (map (fun i => inject_Z (byteFrequencyData a i)) (seq 0 20)) / 20.

(** ** Sample data, to run the model *)

(** A platform with polynomial sine and cosine, a periodic sequence of
    random numbers in [[0,1)], and a recorder that supports VP9 only. *)
Definition samplePlatform : Platform := {|
  Math_sin := fun x => x - x ^ 3 / 6;
  Math_cos := fun x => 1 - x ^ 2 / 2;
  Math_PI := 3.141592653589793;
  Math_random := fun n => inject_Z (Z.of_nat (n mod 10)) / 10;
  isTypeSupported := String.eqb "video/webm;codecs=vp9"
|}.

Definition sampleSettings : VisualSettings := {|
  primaryColor := "#fbbf24";
  secondaryColor := "#ea580c";
  backgroundColor := "#1c1917";
  particleCount := 50;
  particleSpeed := Some 1.0;
  particleSize := None;
  beatSensitivity := 1.0;
  backgroundMode := COLOR;
  backgroundVideo := None;
  backgroundBrightness := Some 1.0;
  animationType := SLIDE_UP;
  transitionDuration := 0.5;
  particleStyle := STANDARD
|}.

Definition sampleLine : LyricLine := {|
  id := "1";
  startTime := 10;
  endTime := 14;
  text := "hello";
  translation := None
|}.

Definition sampleAnalyser : AnalyserNode :=
  {| byteFrequencyData := fun i => Z.of_nat (Nat.min (10 * i) 255) |}.

Definition sampleVideo : HTMLVideoElement :=
  {| readyState := 0; videoWidth := 0; videoHeight := 0 |}.

Definition sampleRefs : Refs := {|
  width := 1920;
  height := 1080;
  analyserRef := Some sampleAnalyser;
  bgVideoRef := sampleVideo;
  bgImageRef := None
|}.

Definition sampleState : StateRef := {|
  lyrics := [sampleLine];
  settings := sampleSettings;
  currentTime := 10.25
|}.

(** A STANDARD particle in the middle of its life. *)
Definition sampleStandard : Particle.t :=
  Particle.mk 100 100 1 1 2 "#fbbf24" 10 150 STANDARD 0 0.01 0.

(** A STANDARD particle one update away from its maximal life. *)
Definition sampleExpiring : Particle.t :=
  Particle.mk 300 300 1 1 2 "#ea580c" 199 200 STANDARD 0 0.01 1.

(** A STANDARD particle whose maximal life, [0.505 * 100 + 100], is not
    a whole number of frames. *)
Definition sampleFractional : Particle.t :=
  Particle.mk 100 100 1 1 2 "#fbbf24" 150 150.5 STANDARD 0 0.01 0.

(** An OCEAN particle that has drifted far to the left of the canvas. *)
Definition sampleStray : Particle.t :=
  Particle.mk (-150) 500 (-0.1) (-1) 3 "#fbbf24" 10 150 OCEAN 0 0.01 0.

(** A MUSICAL particle about to leave the top margin. *)
Definition sampleRising : Particle.t :=
  Particle.mk 100 (-50) 0.2 (-1) 12 "#fbbf24" 10 150 MUSICAL 0 0.01 2.

Definition sampleEngine : Engine :=
  {| particlesRef := [sampleStandard; sampleRising]; ctx := []; rng := 0 |}.

(** ** More of the Visualizer component *)

(** [getResolution]; a ratio outside the four named ones takes the
    [default] branch. *)
Definition getResolution (ratio : string) : Q * Q :=
  if String.eqb ratio "16:9" then (1920, 1080)
  else if String.eqb ratio "9:16" then (1080, 1920)
  else if String.eqb ratio "1:1" then (1080, 1080)
  else if String.eqb ratio "4:3" then (1440, 1080)
  else (1920, 1080).

(** The effect that runs when [settings.aspectRatio] changes: the canvas
    takes the resolution of the ratio and the pool is emptied. *)
Definition resize (aspectRatio : string) (r : Refs) (e : Engine) : Refs * Engine :=
  let '(w, h) := getResolution aspectRatio in
  ({| width := w; height := h;
      analyserRef := analyserRef r;
      bgVideoRef := bgVideoRef r;
      bgImageRef := bgImageRef r |},
   {| particlesRef := []; ctx := ctx e; rng := rng e |}).

(** [setupTextContext]: the font size it sets and returns. *)
Definition adjustedFontSize (fontSize width height : Q) : Q :=
  let scaleRatio := Qmin width height / 1080 in
  fontSize * scaleRatio.

(** The first part of [drawLine]: the four quantities computed from the
    phase, the animation type and the progress. *)
Record LineStyle := {
  alpha : Q;
  scale : Q;
  yOffset : Q;
  blurAmount : Q
}.

Definition lineStyle (M : Platform) (animType : AnimationType)
    (animationSpeed currentFontSize currentTime : Q)
    (phase : Phase) (progress : Q) : LineStyle :=
  let fontBasedOffset := currentFontSize * 1.5 in
  let animSpeedSetting := num_or animationSpeed 1.0 in
  match phase with
  | enter =>
      let t := easeOutCubic progress in
      match animType with
      | FADE =>
          {| alpha := t; scale := 1.0; yOffset := 0; blurAmount := (1 - t) * 4 |}
      | SLIDE_UP =>
          {| alpha := t; scale := 1.0; yOffset := fontBasedOffset * (1 - t);
             blurAmount := (1 - t) * 3 |}
      | ZOOM =>
          {| alpha := t; scale := 0.8 + (0.2 * t); yOffset := 0;
             blurAmount := (1 - t) * 2 |}
      | BOUNCE =>
          let bounceT := easeOutBack progress in
          {| alpha := Qmin 1 (progress * 3); scale := 0.5 + (0.5 * bounceT);
             yOffset := 0; blurAmount := 0 |}
      | WAVE =>
          {| alpha := t; scale := 1.0; yOffset := 0; blurAmount := (1 - t) * 2 |}
      | _ =>
          {| alpha := 1; scale := 1.0; yOffset := 0; blurAmount := 0 |}
      end
  | exit =>
      let t := easeInOutSine M progress in
      match animType with
      | FADE | TYPEWRITER | KINETIC | REVEAL | WAVE =>
          {| alpha := 1 - t; scale := 1.0; yOffset := 0; blurAmount := t * 4 |}
      | SLIDE_UP =>
          {| alpha := 1 - t; scale := 1.0; yOffset := - fontBasedOffset * t;
             blurAmount := t * 3 |}
      | ZOOM =>
          {| alpha := 1 - t; scale := 1 + (0.3 * t); yOffset := 0;
             blurAmount := t * 2 |}
      | BOUNCE =>
          {| alpha := 1 - t; scale := 1 - (0.3 * t); yOffset := 0;
             blurAmount := 0 |}
      end
  | active =>
      match animType with
      | WAVE =>
          {| alpha := 1.0; scale := 1.0; yOffset := 0; blurAmount := 0 |}
      | _ =>
          let idleTime := currentTime * animSpeedSetting in
          {| alpha := 1.0; scale := 1.0;
             yOffset := 0 + Math_sin M idleTime * 3; blurAmount := 0 |}
      end
  end.

(** [ctx.globalAlpha] and the blur of [ctx.filter] ([None] for
    ['none']) that [drawLine] sets from the style. *)
Definition globalAlpha (st : LineStyle) : Q := Qmax 0 (Qmin 1 (alpha st)).

Definition blurFilter (st : LineStyle) : option Q :=
  if blurAmount st >? 0.5 then Some (blurAmount st) else None.

(** A JavaScript string as [length] and [substring] see it: the
    sequence of its UTF-16 code units. *)
Definition CodeUnit := N.

(** [s.substring(0, n)] for an integer [n]: a negative [n] counts as 0
    and one beyond the length as the length. *)
Definition substring0 (n : Z) (s : list CodeUnit) : list CodeUnit :=
  take (Z.to_nat n) s.

(** The TYPEWRITER branch of the enter phase: the text handed to
    [drawTextContent] for the sub-line [txt], if any. *)
Definition typewriter (txt : list CodeUnit) (progress : Q)
    : option (list CodeUnit) :=
  let visibleLen := Qfloor (inject_Z (Z.of_nat (length txt)) * progress) in
  let visibleText := substring0 visibleLen txt in
  if (0 <? length visibleText)%nat then Some visibleText else None.

(** The layout of the sub-lines of a line ([line.text.split]): the
    vertical position [ly] of sub-line [i] out of [count], and the
    position [transY] of the translation drawn under them. *)
Definition subLineY (count i : nat) (currentFontSize : Q) : Q :=
  let lineHeight := currentFontSize * 1.2 in
  let totalHeight := (inject_Z (Z.of_nat count) - 1) * lineHeight in
  (inject_Z (Z.of_nat i) * lineHeight) - (totalHeight / 2).

Definition transY (count : nat) (currentFontSize : Q) : Q :=
  let lineHeight := currentFontSize * 1.2 in
  let totalHeight := (inject_Z (Z.of_nat count) - 1) * lineHeight in
  (totalHeight / 2) + currentFontSize * 1.0.

(** The REVEAL branch of the enter phase: the rectangle handed to
    [ctx.rect] before [ctx.clip]. *)
Record Rect := {
  rect_x : Q;
  rect_y : Q;
  rect_w : Q;
  rect_h : Q
}.

Definition revealClip (width currentFontSize ly progress : Q) : Rect :=
  let h := currentFontSize * 1.5 in
  let revealHeight := h * easeOutCubic progress in
  {| rect_x := - width / 2;
     rect_y := ly + h / 2 - revealHeight;
     rect_w := width;
     rect_h := revealHeight |}.

(** *** The background image

    The effect on [settings.backgroundImage] and the [onload] handler of
    the image that the effect creates are the only writers of
    [bgImageRef].  The effect leaves the ref as it is when it starts a
    load, and clears it when the setting is empty. *)
Inductive ImageEvent :=
| BackgroundImageEffect (backgroundImage : option string)
| ImageOnload (img : HTMLImageElement).

Definition imageEvent (ev : ImageEvent) (current : option HTMLImageElement)
    : option HTMLImageElement :=
  match ev with
  | BackgroundImageEffect backgroundImage =>
      if truthy backgroundImage then current else None
  | ImageOnload img => Some img
  end.

(** [bgImageRef.current] after the events of a history, oldest first;
    the ref starts as [null]. *)
Definition bgImageAfter (history : list ImageEvent)
    : option HTMLImageElement :=
  fold_left (fun current ev => imageEvent ev current) history None.

Definition set_bgImageRef (v : option HTMLImageElement) (r : Refs) : Refs :=
  {| width := width r;
     height := height r;
     analyserRef := analyserRef r;
     bgVideoRef := bgVideoRef r;
     bgImageRef := v |}.

(** *** Recording *)

Record Blob := {
  blob_data : list byte;
  blob_type : string
}.






Inductive RecordingState := inactive | recording | paused.

(** The recorder made by [startRecording]: its state, the mime type it
    was asked for, and the one it reports as [recorder.mimeType]. *)
Record MediaRecorder := {
  state : RecordingState;
  requestedMimeType : string;
  reportedMimeType : string
}.

(** The file a click on the generated link saves. *)
Record Download := {
  href : Blob;
  download : string
}.

(** The part of the component that recording reads and writes. *)
Record Capture := {
  mediaRecorderRef : option MediaRecorder;
  chunksRef : list Blob;
  recordingExtRef : string;
  isRecording : bool;
  downloads : list Download
}.

(** A string as an operand of [||]. *)
Definition str_or (a b : string) : string :=
  if String.eqb a EmptyString then b else a.

(** What [startRecording] finds: which of the refs it reads hold an
    object, and what [new MediaRecorder] does with the mime type it is
    given: the [mimeType] the new recorder reports, or [None] when the
    constructor throws. *)
Record Studio := {
  canvasRef : bool;
  audioRef : bool;
  audioContextRef : bool;
  sourceRef : bool;
  newMediaRecorder : string -> option string
}.

(** How a call of [startRecording] ends: it returns at its guard, it
    runs to its end with the recorder started, or it throws the
    exception of the given name; each with the state it leaves. *)
Inductive Start :=
| Guarded (c : Capture)
| Running (c : Capture)
| Threw (name : string) (c : Capture).

(** [startRecording].  The refs [audioContextRef] and [sourceRef] are
    dereferenced without a test, before the negotiation; the extension
    is stored before the recorder is made.  [recorder.start()] is taken
    to succeed on the new recorder. *)
Definition startRecording (M : Platform) (env : Studio) (c : Capture)
    : Start :=
  if negb (canvasRef env) || negb (audioRef env) then Guarded c
  else if negb (audioContextRef env) then Threw "TypeError" c
  else if negb (sourceRef env) then Threw "TypeError" c
  else
    let '(mimeType, ext) := negotiate M in
    let c := {| mediaRecorderRef := mediaRecorderRef c;
                chunksRef := chunksRef c;
                recordingExtRef := ext;
                isRecording := isRecording c;
                downloads := downloads c |} in
    match newMediaRecorder env mimeType with
    | None => Threw "NotSupportedError" c
    | Some reported =>
        Running {| mediaRecorderRef :=
                     Some {| state := recording;
                             requestedMimeType := mimeType;
                             reportedMimeType := reported |};
                   chunksRef := chunksRef c;
                   recordingExtRef := recordingExtRef c;
                   isRecording := true;
                   downloads := downloads c |}
    end.




(** ** The application component *)

Definition set_startTime (v : Q) (l : LyricLine) : LyricLine :=
  {| id := id l; startTime := v; endTime := endTime l; text := text l;
     translation := translation l |}.

Definition set_endTime (v : Q) (l : LyricLine) : LyricLine :=
  {| id := id l; startTime := startTime l; endTime := v; text := text l;
     translation := translation l |}.

Definition set_translation (v : option string) (l : LyricLine) : LyricLine :=
  {| id := id l; startTime := startTime l; endTime := endTime l;
     text := text l; translation := v |}.

(** What a handler leaves behind: a new state, or the [TypeError] of a
    property written on [undefined]. *)
Inductive Outcome (A : Type) :=
| Ok (a : A)
| TypeError.

Arguments Ok {A} a.
Arguments TypeError {A}.

Module App.

(** The state of the component that manual synchronisation uses. *)
Record t := mk {
  lyrics : list LyricLine;
  currentSyncIndex : nat;
  showSyncOverlay : bool;
  audioSrc : option string
}.

(** [startSyncMode]; without an audio source it only alerts. *)
Definition startSyncMode (a : t) : t :=
  if truthy (audioSrc a) then mk (lyrics a) 0 true (audioSrc a) else a.

(** [markCurrentLine], with [audio] the [currentTime] of the audio
    element, if there is one.  The two [setLyrics] updaters run in the
    order they were queued. *)
Definition markCurrentLine (audio : option Q) (a : t) : Outcome t :=
  match audio with
  | None => Ok a
  | Some now =>
      let idx := currentSyncIndex a in
      let newLyrics :=
        let prev := lyrics a in
        if (idx <? length prev)%nat then
          let l := alter (set_startTime now) idx prev in
          if (0 <? idx)%nat then alter (set_endTime now) (idx - 1)%nat l
          else l
        else prev in
      if (Z.of_nat idx <? Z.of_nat (length (lyrics a)) - 1)%Z then
        Ok (mk newLyrics (idx + 1) (showSyncOverlay a) (audioSrc a))
      else
        match length newLyrics with
        | O => TypeError
        | S last =>
            Ok (mk (alter (set_endTime (now + 5)) last newLyrics)
                   idx false (audioSrc a))
        end
  end.

(** The [keydown] listener. *)
Definition handleKeyDown (code key : string) (audio : option Q) (a : t)
    : Outcome t :=
  if showSyncOverlay a
     && (String.eqb code "Space" || String.eqb key "Enter")
  then markCurrentLine audio a
  else Ok a.

(** The space bar pressed at each of the times [ts], one after the other. *)
Fixpoint pressSpace (ts : list Q) (a : t) : Outcome t :=
  match ts with
  | [] => Ok a
  | now :: rest =>
      match handleKeyDown "Space" " " (Some now) a with
      | Ok a' => pressSpace rest a'
      | TypeError => TypeError
      end
  end.

End App.

(** ** services/geminiService.ts

    The answer of the generation service is a parameter: [None] stands
    for a call that throws, an empty answer and an answer that does not
    parse, which the functions treat alike; an answer that parses is
    taken to follow the response schema of the request. *)

(** [new Map(data.translations.map(t => [t.id, t.translation]))]: a later
    entry for an id replaces an earlier one. *)
Definition translationMap (translations : list (string * string))
    : gmap string string :=
  fold_left (fun m t => <[t.1 := t.2]> m) translations ∅.

Definition translateLyricsAI (response : option (list (string * string)))
    (lyrics : list LyricLine) : list LyricLine :=
  match response with
  | Some translations =>
      let translationMap := translationMap translations in
      map (fun line =>
             set_translation
               (Some (str_or (default EmptyString (translationMap !! id line))
                             EmptyString))
               line)
          lyrics
  | None => lyrics
  end.

(** The decimal numeral of an array index in a template literal. *)
Definition string_of_index (index : nat) : string :=
  NilEmpty.string_of_uint (Nat.to_uint index).

(** One entry of [data.lines]. *)
Record TimedLine := {
  tl_text : string;
  tl_startTime : Q;
  tl_endTime : Q
}.

Definition smartTimingAI (response : option (list TimedLine)) : list LyricLine :=
  match response with
  | Some lines =>
      imap (fun index l =>
              {| id := "line-" ++ string_of_index index;
                 startTime := tl_startTime l;
                 endTime := tl_endTime l;
                 text := tl_text l;
                 translation := Some EmptyString |})
           lines
  | None => []
  end.

(** [handleSmartTiming]: the lyrics it leaves; [audio] tells whether the
    audio element exists. *)
Definition handleSmartTiming (audio : bool) (response : option (list TimedLine))
    (lyrics : list LyricLine) : list LyricLine :=
  if audio then
    let timedLyrics := smartTimingAI response in
    if (0 <? length timedLyrics)%nat then timedLyrics else lyrics
  else lyrics.

(** ** More vocabulary *)

(** The lyric lines of the [drawLine] calls in a list of operations. *)
Definition drawnLines (ops : list CanvasOp) : list LyricLine :=
  flat_map (fun op => match op with
                      | DrawLine line _ _ => [line]
                      | _ => []
                      end) ops.

(** Whether [currentTime] lies in the window of the line, from its start
    to one transition after its end. *)
Definition visible (transitionDuration currentTime : Q) (line : LyricLine) : bool :=
  (currentTime >=? startTime line)
  && (currentTime <? endTime line + transitionDuration).

(** [Math.random()] returns a number from 0 up to, and not reaching, 1. *)
Definition unit_random (M : Platform) : Prop :=
  forall k, 0 <= Math_random M k /\ Math_random M k < 1.

(** [update] applied to every particle of the pool, in order, with the
    random numbers threaded from one call to the next. *)
Fixpoint updateAll (M : Platform) (r : Refs) (s : VisualSettings)
    (beatFactor : Q) (pool : list Particle.t) (n : nat)
    : list Particle.t * nat :=
  match pool with
  | [] => ([], n)
  | p :: rest =>
      let '(p', n') :=
        Particle.update M p (width r) (height r) beatFactor
          (nullish (particleSpeed s) 1.0) n in
      let '(ps, m) := updateAll M r s beatFactor rest n' in
      (p' :: ps, m)
  end.

(** The timeline that marking the lines at the times [ts] is meant to
    give: a line starts at its own mark and ends at the next mark, the
    last one five seconds after its mark. *)
Fixpoint retime (ls : list LyricLine) (ts : list Q) : list LyricLine :=
  match ls, ts with
  | l :: ls', t :: ts' =>
      set_endTime (match ts' with t' :: _ => t' | [] => t + 5 end)
                  (set_startTime t l)
      :: retime ls' ts'
  | _, _ => []
  end.



(** More sample data. *)

Definition sampleCapture : Capture := {|
  mediaRecorderRef := None;
  chunksRef := [];
  recordingExtRef := "webm";
  isRecording := false;
  downloads := []
|}.

(** A component after first playback, on a platform whose recorder
    reports the codec in the way of Chromium. *)
Definition sampleStudio : Studio := {|
  canvasRef := true;
  audioRef := true;
  audioContextRef := true;
  sourceRef := true;
  newMediaRecorder := fun mimeType =>
    if String.eqb mimeType "video/webm;codecs=vp9"
    then Some "video/webm;codecs=vp09.00.10.08"%string
    else if String.eqb mimeType "video/mp4"
    then Some "video/mp4;codecs=avc1.64003E"%string
    else None
|}.


Definition sampleApp : App.t :=
  App.mk [ {| id := "1"; startTime := 0; endTime := 4; text := "one";
              translation := None |};
           {| id := "2"; startTime := 4.1; endTime := 8; text := "two";
              translation := None |};
           {| id := "3"; startTime := 8.1; endTime := 12; text := "three";
              translation := None |} ]
         0 true (Some "blob:song").

(** * Properties *)

(** ** Boolean comparisons *)

Lemma Qlt_bool_iff (a b : Q) : (a <? b) = true <-> a < b.
Proof.
  unfold Qlt_bool. rewrite negb_true_iff.
  split; intro H.
  - apply Qnot_le_lt. intro Hle. apply Qle_bool_iff in Hle. congruence.
  - destruct (Qle_bool b a) eqn:E; [|reflexivity].
    apply Qle_bool_iff in E. lra.
Qed.

Lemma Qlt_bool_spec (a b : Q) : reflect (a < b) (a <? b).
Proof.
  destruct (a <? b) eqn:E; constructor.
  - now apply Qlt_bool_iff.
  - intro H. apply Qlt_bool_iff in H. congruence.
Qed.

Lemma Qle_bool_spec (a b : Q) : reflect (a <= b) (a <=? b).
Proof.
  destruct (a <=? b) eqn:E; constructor.
  - now apply Qle_bool_iff.
  - intro H. apply Qle_bool_iff in H. congruence.
Qed.

Lemma Qgt_bool_spec (a b : Q) : reflect (b < a) (a >? b).
Proof. apply Qlt_bool_spec. Qed.

Lemma Qge_bool_spec (a b : Q) : reflect (b <= a) (a >=? b).
Proof. apply Qle_bool_spec. Qed.

(** Case analysis on the first comparison found in the goal. *)
Ltac case_cmp :=
  match goal with
  | |- context [?a >=? ?b] => destruct (Qge_bool_spec a b)
  | |- context [?a >? ?b] => destruct (Qgt_bool_spec a b)
  | |- context [?a <? ?b] => destruct (Qlt_bool_spec a b)
  | |- context [?a <=? ?b] => destruct (Qle_bool_spec a b)
  end.

(** Closed comparisons, by evaluation. *)
Ltac q_eval := vm_compute; first [reflexivity | discriminate].

(** Closed comparisons that fail. *)
Ltac q_absurd H :=
  revert H; first [apply Qlt_not_le; q_eval | apply Qle_not_lt; q_eval].

Lemma num_or_pos (a b : Q) : 0 <= a -> 0 < b -> 0 < num_or a b.
Proof.
  intros Ha Hb. unfold num_or.
  destruct (Qeq_bool a 0) eqn:E; [assumption|].
  apply Qeq_bool_neq in E. lra.
Qed.

(** ** Easing *)

(** C9. The three easing functions agree with their reference
    definitions at every argument (in particular on [[0,1]]), and
    [easeOutBack] overshoots: it exceeds 1 at some point strictly
    between 0 and 1. *)
Theorem C9_easing_reference :
  (forall x, easeOutCubic x == Reference.easeOutCubic x) /\
  (forall M x, easeInOutSine M x
               = Reference.easeInOutSine (Math_cos M) (Math_PI M) x) /\
  (forall x, easeOutBack x == Reference.easeOutBack x) /\
  (exists x, 0 < x /\ x < 1 /\ 1 < easeOutBack x).
Proof.
  repeat split.
  - intro x. unfold easeOutCubic, Reference.easeOutCubic. simpl. ring.
  - intro x. unfold easeOutBack, Reference.easeOutBack, Reference.c3,
      Reference.c1. simpl. ring.
  - exists 0.5. repeat split; vm_compute; reflexivity.
Qed.

(** ** Lyric transitions *)

Lemma lyricLines_calls (st : StateRef) (line : LyricLine) (ph : Phase) (pr : Q) :
  In (DrawLine line ph pr) (lyricLines st) <->
  In line (lyrics st) /\
  lyricCall (num_or (transitionDuration (settings st)) 0.5) (currentTime st) line
    = Some (ph, pr).
Proof.
  unfold lyricLines. cbv zeta. rewrite in_flat_map. split.
  - intros (l & Hin & Hop).
    destruct (lyricCall _ _ l) as [[ph' pr']|] eqn:E; simpl in Hop; [|tauto].
    destruct Hop as [Hop|[]]. injection Hop as -> -> ->. auto.
  - intros [Hin Hcall]. exists line. split; [assumption|].
    rewrite Hcall. simpl. auto.
Qed.

Lemma lyricCall_phases (td t : Q) (line : LyricLine) :
  0 < td ->
  (forall pr, lyricCall td t line = Some (enter, pr) <->
     (startTime line <= t /\ t < startTime line + td /\ t < endTime line)
     /\ pr = (t - startTime line) / td) /\
  (forall pr, lyricCall td t line = Some (active, pr) <->
     (startTime line + td <= t /\ t < endTime line) /\ pr = 1) /\
  (forall pr, lyricCall td t line = Some (exit, pr) <->
     (endTime line <= t /\ t < endTime line + td)
     /\ pr = (t - endTime line) / td) /\
  (lyricCall td t line = None <->
     ~ (startTime line <= t /\ t < startTime line + td /\ t < endTime line) /\
     ~ (startTime line + td <= t /\ t < endTime line) /\
     ~ (endTime line <= t /\ t < endTime line + td)).
Proof.
  intros Htd.
  unfold lyricCall. cbv zeta.
  repeat case_cmp; cbn [andb];
    repeat split; intros; try discriminate;
    repeat match goal with
           | H : _ /\ _ |- _ => destruct H
           | H : Some _ = Some _ |- _ => injection H as <-
           | |- Some _ = Some _ => subst; reflexivity
           | |- _ /\ _ => split
           | |- ~ _ => intro
           end;
    try reflexivity; try lra.
Qed.

Lemma lyricLines_none (st : StateRef) (line : LyricLine) :
  In line (lyrics st) ->
  (forall ph pr, ~ In (DrawLine line ph pr) (lyricLines st)) <->
  lyricCall (num_or (transitionDuration (settings st)) 0.5) (currentTime st) line
  = None.
Proof.
  intro Hin. split.
  - intro Hnone.
    destruct (lyricCall _ _ line) as [[ph pr]|] eqn:E; [|reflexivity].
    exfalso. apply (Hnone ph pr). apply lyricLines_calls. auto.
  - intros E ph pr Hdrawn. apply lyricLines_calls in Hdrawn.
    destruct Hdrawn as [_ Hcall]. congruence.
Qed.

(** C1. In a frame, with [td] the transition duration in force (the
    setting, or 0.5 when the setting is 0), the setting not negative and
    [t] the current time, a line of the lyrics is drawn in phase enter,
    with progress [(t - startTime) / td], exactly when
    [startTime <= t < startTime + td] and [t < endTime]; in phase
    active, with progress 1, exactly when [startTime + td <= t < endTime];
    in phase exit, with progress [(t - endTime) / td], exactly when
    [endTime <= t < endTime + td]; and not at all otherwise.  The frame
    draws no line that is not in the lyrics, and these draws are the
    last operations of the frame.  For the line from 10 to 14 and
    [td = 0.5] the frame draws it once: enter with progress 0 at 10 and
    0.5 at 10.25, active at 10.5, exit with progress 0 at 14; and it
    draws nothing at 9.99, 14.5 and 14.51. *)
Theorem C1_phase_selection :
  (forall (st : StateRef) (line : LyricLine),
     0 <= transitionDuration (settings st) ->
     In line (lyrics st) ->
     let td := num_or (transitionDuration (settings st)) 0.5 in
     let t := currentTime st in
     let drawn ph pr := In (DrawLine line ph pr) (lyricLines st) in
     (forall pr, drawn enter pr <->
        (startTime line <= t /\ t < startTime line + td /\ t < endTime line)
        /\ pr = (t - startTime line) / td) /\
     (forall pr, drawn active pr <->
        (startTime line + td <= t /\ t < endTime line) /\ pr = 1) /\
     (forall pr, drawn exit pr <->
        (endTime line <= t /\ t < endTime line + td)
        /\ pr = (t - endTime line) / td) /\
     ((forall ph pr, ~ drawn ph pr) <->
        ~ (startTime line <= t /\ t < startTime line + td /\ t < endTime line) /\
        ~ (startTime line + td <= t /\ t < endTime line) /\
        ~ (endTime line <= t /\ t < endTime line + td))) /\
  (forall (st : StateRef) line ph pr,
     In (DrawLine line ph pr) (lyricLines st) -> In line (lyrics st)) /\
  (forall (M : Platform) (r : Refs) (st : StateRef) (e : Engine),
     exists before, ctx (animate M r st e) = before ++ lyricLines st) /\
  (let frame t := lyricLines {| lyrics := [sampleLine];
                                settings := sampleSettings;
                                currentTime := t |} in
   (exists pr, frame 10 = [DrawLine sampleLine enter pr] /\ pr == 0) /\
   (exists pr, frame 10.25 = [DrawLine sampleLine enter pr] /\ pr == 0.5) /\
   (exists pr, frame 10.5 = [DrawLine sampleLine active pr] /\ pr == 1) /\
   (exists pr, frame 14 = [DrawLine sampleLine exit pr] /\ pr == 0) /\
   frame 9.99 = [] /\ frame 14.5 = [] /\ frame 14.51 = []).
Proof.
  split; [|split; [|split]].
  - intros st line Hs Hin td t drawn.
    assert (Htd : 0 < td) by (apply num_or_pos; [assumption | reflexivity]).
    destruct (lyricCall_phases td t line Htd) as (He & Ha & Hx & Hn).
    assert (Hdrawn : forall ph pr,
               drawn ph pr <-> lyricCall td t line = Some (ph, pr)).
    { intros ph pr. unfold drawn. rewrite lyricLines_calls. tauto. }
    split; [|split; [|split]].
    + intro pr. rewrite Hdrawn. apply He.
    + intro pr. rewrite Hdrawn. apply Ha.
    + intro pr. rewrite Hdrawn. apply Hx.
    + rewrite <- Hn. apply lyricLines_none. assumption.
  - intros st line ph pr Hdrawn. apply lyricLines_calls in Hdrawn. tauto.
  - intros M r st e. unfold animate. cbv zeta. cbn [ctx].
    rewrite app_assoc. eexists. reflexivity.
  - cbv zeta. repeat split;
      try (eexists; split; [vm_compute; reflexivity | vm_compute; reflexivity]);
      vm_compute; reflexivity.
Qed.

(** The theorem at the sample state: the sample line at 10.25 under the
    default settings. *)
Lemma C1_phase_selection_witness :
  In (DrawLine sampleLine enter
        ((10.25 - startTime sampleLine)
         / num_or (transitionDuration sampleSettings) 0.5))
     (lyricLines sampleState).
Proof.
  assert (H : 0 <= transitionDuration (settings sampleState)) by q_eval.
  assert (Hin : In sampleLine (lyrics sampleState)) by (left; reflexivity).
  apply (proj1 (proj1 C1_phase_selection sampleState sampleLine H Hin) _).
  split; [|reflexivity].
  repeat split; q_eval.
Defined.

(** ** Beat factor *)

Lemma lookup_map_seq {A} (f : nat -> A) (n start i : nat) :
  (i < n)%nat -> map f (seq start n) !! i = Some (f (start + i)%nat).
Proof.
  revert start i. induction n as [|n IH]; intros start i Hi; [lia|].
  destruct i as [|i]; simpl.
  - now rewrite Nat.add_0_r.
  - rewrite IH by lia. f_equal. f_equal. lia.
Qed.

(** The array polled by [animate] has 128 entries: the loops over the
    first twenty never read past its end. *)
Lemma dataArray_defined (a : AnalyserNode) (i : nat) :
  (i < 128)%nat ->
  elem (getByteFrequencyData a (frequencyBinCount a)) i
  = inject_Z (byteFrequencyData a i).
Proof.
  intro Hi. unfold elem, getByteFrequencyData, frequencyBinCount, fftSize.
  change (Nat.div 256 2) with 128%nat.
  now rewrite lookup_map_seq.
Qed.

Lemma fold_left_sum (g : nat -> Q) (l : list nat) (acc : Q) :
  fold_left (fun sum i => sum + g i) l acc
  == acc + fold_right Qplus 0 (map g l).
Proof.
  revert acc. induction l as [|i l IH]; intro acc; simpl.
  - ring.
  - rewrite IH. ring.
Qed.

Lemma sum_nonneg (l : list Q) :
  Forall (fun v => 0 <= v) l -> 0 <= fold_right Qplus 0 l.
Proof.
  induction 1 as [|v l Hv _ IH]; simpl; lra.
Qed.

Lemma beatFactor_average (a : AnalyserNode) (s : VisualSettings) :
  beatFactor (Some a) s
  == 1 + (averageOfFirst20 a / 255) * beatSensitivity s.
Proof.
  unfold beatFactor, averageOfFirst20. cbv zeta.
  rewrite fold_left_sum.
  assert (E : map (elem (getByteFrequencyData a (frequencyBinCount a))) (seq 0 20)
              = map (fun i => inject_Z (byteFrequencyData a i)) (seq 0 20)).
  { apply map_ext_in. intros i Hi. apply in_seq in Hi.
    apply dataArray_defined. lia. }
  rewrite E. field.
Qed.

Lemma averageOfFirst20_nonneg (a : AnalyserNode) :
  (forall i, (0 <= byteFrequencyData a i <= 255)%Z) -> 0 <= averageOfFirst20 a.
Proof.
  intro Hb. unfold averageOfFirst20.
  assert (H : 0 <= fold_right Qplus 0
                (map (fun i => inject_Z (byteFrequencyData a i)) (seq 0 20))).
  { apply sum_nonneg. apply List.Forall_forall. intros v Hv.
    apply in_map_iff in Hv. destruct Hv as (i & <- & _).
    change 0 with (inject_Z 0). rewrite <- Zle_Qle. apply Hb. }
  apply Qle_shift_div_l; [reflexivity | lra].
Qed.

(** C5. With a sampler attached the beat factor is
    [1 + (average of the first 20 bins / 255) * beatSensitivity]; with
    none it is 1; and when the bins lie in [[0,255]] and the sensitivity
    is not negative it is at least 1 in both cases. *)
Theorem C5_beat_factor (s : VisualSettings) :
  (forall a, beatFactor (Some a) s
             == 1 + (averageOfFirst20 a / 255) * beatSensitivity s) /\
  beatFactor None s == 1 /\
  (forall analyser,
     (forall a i, analyser = Some a -> (0 <= byteFrequencyData a i <= 255)%Z) ->
     0 <= beatSensitivity s ->
     1 <= beatFactor analyser s).
Proof.
  split; [|split].
  - intro a. apply beatFactor_average.
  - reflexivity.
  - intros [a|] Hbins Hs.
    + rewrite beatFactor_average.
      assert (Ha : 0 <= averageOfFirst20 a)
        by (apply averageOfFirst20_nonneg; intro i; now apply Hbins).
      assert (Hd : 0 <= averageOfFirst20 a / 255)
        by (apply Qle_shift_div_l; [reflexivity | lra]).
      pose proof (Qmult_le_0_compat _ _ Hd Hs). lra.
    + simpl. q_eval.
Qed.

(** The theorem at the sample analyser and the default sensitivity. *)
Lemma C5_beat_factor_witness : 1 <= beatFactor (Some sampleAnalyser) sampleSettings.
Proof.
  apply (proj2 (proj2 (C5_beat_factor sampleSettings))).
  - intros a i E. injection E as <-. simpl. lia.
  - q_eval.
Defined.

(** ** Codec negotiation *)

Lemma find_first {A} (f : A -> bool) (pre : list A) (t : A) (post : list A) :
  Forall (fun u => f u = false) pre -> f t = true ->
  find f (pre ++ t :: post) = Some t.
Proof.
  induction 1 as [|u pre Hu _ IH]; intro Ht; simpl.
  - now rewrite Ht.
  - rewrite Hu. now apply IH.
Qed.

Lemma find_none_all {A} (f : A -> bool) (l : list A) :
  Forall (fun u => f u = false) l -> find f l = None.
Proof.
  induction 1 as [|u l Hu _ IH]; simpl; [reflexivity|].
  now rewrite Hu.
Qed.

Lemma negotiate_cases (M : Platform) :
  (forall pre t post,
     types = pre ++ t :: post ->
     Forall (fun u => isTypeSupported M (mime u) = false) pre ->
     isTypeSupported M (mime t) = true ->
     negotiate M = (mime t, ext t)) /\
  (Forall (fun u => isTypeSupported M (mime u) = false) types ->
   negotiate M = ("video/webm", "webm")%string) /\
  ((forall t, In t types ->
      (isTypeSupported M (mime t) = true
       <-> mime t = "video/webm;codecs=vp9"%string)) ->
   negotiate M = ("video/webm;codecs=vp9", "webm")%string).
Proof.
  split; [|split].
  - intros pre t post E Hpre Ht. unfold negotiate. cbv zeta.
    rewrite E, (find_first _ pre t post Hpre Ht). reflexivity.
  - intro Hall. unfold negotiate. cbv zeta.
    rewrite (find_none_all _ _ Hall). reflexivity.
  - intro Honly. unfold negotiate. cbv zeta.
    assert (H1 : isTypeSupported M "video/mp4" = false).
    { destruct (isTypeSupported M "video/mp4") eqn:E; [|reflexivity].
      apply (Honly {| mime := "video/mp4"; ext := "mp4" |}) in E;
        [discriminate | simpl; auto]. }
    assert (H2 : isTypeSupported M "video/webm;codecs=h264" = false).
    { destruct (isTypeSupported M "video/webm;codecs=h264") eqn:E; [|reflexivity].
      apply (Honly {| mime := "video/webm;codecs=h264"; ext := "webm" |}) in E;
        [discriminate | simpl; auto]. }
    assert (H3 : isTypeSupported M "video/webm;codecs=vp9" = true).
    { apply (Honly {| mime := "video/webm;codecs=vp9"; ext := "webm" |});
        [simpl; auto | reflexivity]. }
    simpl. rewrite H1, H2, H3. reflexivity.
Qed.

(** [startRecording] past its guard and its two dereferences. *)
Lemma startRecording_negotiates (M : Platform) (env : Studio) (c : Capture) :
  canvasRef env = true -> audioRef env = true ->
  audioContextRef env = true -> sourceRef env = true ->
  startRecording M env c
  = match newMediaRecorder env (fst (negotiate M)) with
    | None =>
        Threw "NotSupportedError"
          {| mediaRecorderRef := mediaRecorderRef c;
             chunksRef := chunksRef c;
             recordingExtRef := snd (negotiate M);
             isRecording := isRecording c;
             downloads := downloads c |}
    | Some reported =>
        Running {| mediaRecorderRef :=
                     Some {| state := recording;
                             requestedMimeType := fst (negotiate M);
                             reportedMimeType := reported |};
                   chunksRef := chunksRef c;
                   recordingExtRef := snd (negotiate M);
                   isRecording := true;
                   downloads := downloads c |}
    end.
Proof.
  intros H1 H2 H3 H4. unfold startRecording. rewrite H1, H2, H3, H4.
  cbn [negb orb]. destruct (negotiate M) as [mimeType recordingExt].
  cbn [fst snd]. destruct (newMediaRecorder env mimeType); reflexivity.
Qed.

(** C6. A call of [startRecording] that finds the refs it reads gets to
    the negotiation.  The preference list is mp4, webm-h264, webm-vp9,
    webm, in this order.  The first entry the platform supports gives
    the mime type the recorder is made with and the extension stored in
    [recordingExtRef]; with no supported entry they are video/webm and
    webm; and when vp9 is the only supported entry of the list they are
    the vp9 mime type and webm.  The extension is stored before the
    recorder is made: it is there with the started recorder, and also
    when the constructor refuses the mime type. *)
Theorem C6_codec_negotiation (M : Platform) (env : Studio) (c : Capture) :
  canvasRef env = true -> audioRef env = true ->
  audioContextRef env = true -> sourceRef env = true ->
  let recorded (mimeType recordingExt : string) :=
    match startRecording M env c with
    | Running c' =>
        recordingExtRef c' = recordingExt /\
        exists reported,
          newMediaRecorder env mimeType = Some reported /\
          mediaRecorderRef c'
          = Some {| state := recording;
                    requestedMimeType := mimeType;
                    reportedMimeType := reported |}
    | Threw name c' =>
        name = "NotSupportedError"%string /\
        newMediaRecorder env mimeType = None /\
        recordingExtRef c' = recordingExt /\
        mediaRecorderRef c' = mediaRecorderRef c
    | Guarded _ => False
    end in
  map mime types = [ "video/mp4"; "video/webm;codecs=h264";
                     "video/webm;codecs=vp9"; "video/webm" ]%string /\
  (forall pre t post,
     types = pre ++ t :: post ->
     Forall (fun u => isTypeSupported M (mime u) = false) pre ->
     isTypeSupported M (mime t) = true ->
     recorded (mime t) (ext t)) /\
  (Forall (fun u => isTypeSupported M (mime u) = false) types ->
   recorded "video/webm" "webm")%string /\
  ((forall t, In t types ->
      (isTypeSupported M (mime t) = true
       <-> mime t = "video/webm;codecs=vp9"%string)) ->
   recorded "video/webm;codecs=vp9" "webm")%string.
Proof.
  intros H1 H2 H3 H4 recorded.
  assert (Hrec : forall mimeType recordingExt,
             negotiate M = (mimeType, recordingExt) ->
             recorded mimeType recordingExt).
  { intros mimeType recordingExt E. unfold recorded.
    rewrite (startRecording_negotiates M env c H1 H2 H3 H4), E.
    cbn [fst snd].
    destruct (newMediaRecorder env mimeType) as [reported|] eqn:Enew.
    - split; [reflexivity|]. exists reported. split; reflexivity.
    - repeat split. }
  destruct (negotiate_cases M) as (Hfirst & Hnone & Hvp9).
  split; [reflexivity|]. split; [|split].
  - intros pre t post E Hpre Ht. apply Hrec. exact (Hfirst pre t post E Hpre Ht).
  - intro Hall. apply Hrec. exact (Hnone Hall).
  - intro Honly. apply Hrec. exact (Hvp9 Honly).
Qed.

(** The theorem at the sample platform, whose recorder supports VP9
    only: the recorder is made with the VP9 mime type and the extension
    stored is webm. *)
Lemma C6_codec_negotiation_witness :
  match startRecording samplePlatform sampleStudio sampleCapture with
  | Running c' =>
      recordingExtRef c' = "webm"%string /\
      exists reported,
        newMediaRecorder sampleStudio "video/webm;codecs=vp9" = Some reported /\
        mediaRecorderRef c'
        = Some {| state := recording;
                  requestedMimeType := "video/webm;codecs=vp9";
                  reportedMimeType := reported |}
  | Threw name c' =>
      name = "NotSupportedError"%string /\
      newMediaRecorder sampleStudio "video/webm;codecs=vp9" = None /\
      recordingExtRef c' = "webm"%string /\
      mediaRecorderRef c' = mediaRecorderRef sampleCapture
  | Guarded _ => False
  end.
Proof.
  apply (proj2 (proj2 (proj2 (C6_codec_negotiation samplePlatform sampleStudio
                                sampleCapture eq_refl eq_refl eq_refl
                                eq_refl)))).
  intros t Hin. simpl in Hin.
  destruct Hin as [<-|[<-|[<-|[<-|[]]]]]; simpl; split; intro H;
    first [reflexivity | discriminate].
Defined.

(** ** KINETIC windows *)

Lemma clamp_cases (p : Q) :
  (p <= 0 -> Qmax 0 (Qmin 1 p) == 0) /\
  (0 <= p -> p <= 1 -> Qmax 0 (Qmin 1 p) == p) /\
  (1 <= p -> Qmax 0 (Qmin 1 p) == 1).
Proof.
  repeat split; intros.
  - rewrite Q.max_l; [reflexivity|].
    destruct (Q.min_spec 1 p) as [[? E]|[? E]]; rewrite E; lra.
  - rewrite Q.min_r by assumption. now rewrite Q.max_r.
  - rewrite Q.min_l by assumption. rewrite Q.max_r; [reflexivity | lra].
Qed.

Lemma kinetic_raw_progress (count idx : nat) (progress : Q) :
  (progress - kineticStartP count idx)
  / (kineticEndP count idx - kineticStartP count idx)
  == (progress - kineticStartP count idx) / 0.3.
Proof.
  unfold kineticEndP. apply Qdiv_comp; [reflexivity | ring].
Qed.

Lemma kineticClampedP_cases (count idx : nat) (progress : Q) :
  let startP := kineticStartP count idx in
  let endP := kineticEndP count idx in
  (progress <= startP -> kineticClampedP count idx progress == 0) /\
  (startP <= progress -> progress <= endP ->
     kineticClampedP count idx progress == (progress - startP) / 0.3) /\
  (endP <= progress -> kineticClampedP count idx progress == 1).
Proof.
  intros startP endP. unfold kineticClampedP. cbv zeta.
  fold startP endP.
  set (p := (progress - startP) / (endP - startP)).
  assert (Ep : p == (progress - startP) / 0.3)
    by apply kinetic_raw_progress.
  assert (Em : p * 0.3 == progress - startP) by (rewrite Ep; field).
  assert (Eend : endP == startP + 0.3) by reflexivity.
  destruct (clamp_cases p) as (H0 & H01 & H1).
  repeat split; intros.
  - apply H0. lra.
  - rewrite H01; [assumption | lra | lra].
  - apply H1. lra.
Qed.

Lemma kineticClampedP_partway (count idx : nat) (progress : Q) :
  0 < kineticClampedP count idx progress < 1 <->
  kineticStartP count idx < progress < kineticEndP count idx.
Proof.
  destruct (kineticClampedP_cases count idx progress) as (H0 & H01 & H1).
  assert (Eend : kineticEndP count idx == kineticStartP count idx + 0.3)
    by reflexivity.
  destruct (Qlt_le_dec (kineticStartP count idx) progress) as [Hs|Hs];
    destruct (Qlt_le_dec progress (kineticEndP count idx)) as [He|He].
  - rewrite H01 by lra.
    assert (E : (progress - kineticStartP count idx) / 0.3 * 0.3
                == progress - kineticStartP count idx) by field.
    lra.
  - rewrite H1 by assumption. lra.
  - rewrite H0 by assumption. lra.
  - rewrite H0 by assumption. lra.
Qed.

(** C8, as the code has it.  The KINETIC strategy is the one of the
    enter phase only.  The character at index [idx] of [count]
    has the window from [idx/count * 0.8] to [idx/count * 0.8 + 0.3]; its
    clamped progress is 0 up to the start of the window, 1 from its end
    on and [(progress - start) / 0.3] in between; it is drawn, at scale
    [easeOutBack] of the clamped progress, exactly when the progress has
    passed the start of its window.  With 5 characters and progress 0.5,
    character 0 (window 0 to 0.3) has clamped progress 1, and character 4
    (window 0.64 to 0.94) has clamped progress 0 and is not drawn: it is
    partway exactly for a progress strictly between 0.64 and 0.94. *)
Theorem C8_kinetic_window :
  (forall phase, glyphStrategy phase KINETIC = Kinetic <-> phase = enter) /\
  (forall (count idx : nat) (progress : Q),
     (idx < count)%nat ->
     let startP := kineticStartP count idx in
     let endP := kineticEndP count idx in
     startP == inject_Z (Z.of_nat idx) / inject_Z (Z.of_nat count) * 0.8 /\
     endP == startP + 0.3 /\
     (progress <= startP -> kineticClampedP count idx progress == 0) /\
     (startP <= progress -> progress <= endP ->
        kineticClampedP count idx progress == (progress - startP) / 0.3) /\
     (endP <= progress -> kineticClampedP count idx progress == 1) /\
     (forall c,
        (startP < progress ->
           kineticChar count progress idx c
           = Some (c, easeOutBack (kineticClampedP count idx progress))) /\
        (progress <= startP -> kineticChar count progress idx c = None))) /\
  (forall (txt : string) (progress : Q) (idx : nat) (c : ascii),
     list_ascii_of_string txt !! idx = Some c ->
     kinetic txt progress !! idx
     = Some (kineticChar (String.length txt) progress idx c)) /\
  (kineticStartP 5 0 == 0 /\ kineticEndP 5 0 == 0.3 /\
   kineticClampedP 5 0 0.5 == 1) /\
  (kineticStartP 5 4 == 0.64 /\ kineticEndP 5 4 == 0.94 /\
   kineticClampedP 5 4 0.5 == 0 /\
   (forall c, kineticChar 5 0.5 4 c = None) /\
   (forall progress,
      0 < kineticClampedP 5 4 progress < 1 <-> 0.64 < progress < 0.94)).
Proof.
  split; [|split; [|split; [|split]]].
  - intros [| |]; simpl; split; intro H; first [reflexivity | discriminate].
  - intros count idx progress _ startP endP.
    destruct (kineticClampedP_cases count idx progress) as (H0 & H01 & H1).
    fold startP endP in H0, H01, H1.
    repeat split; try assumption; try reflexivity.
    + intro Hs. unfold kineticChar. cbv zeta.
      case_cmp; [reflexivity|]. exfalso.
      destruct (Qlt_le_dec progress endP) as [He|He].
      * pose proof (proj1 (kineticClampedP_partway count idx progress)) as Hp.
        pose proof (proj2 (kineticClampedP_partway count idx progress)
                      (conj Hs He)). lra.
      * rewrite H1 in n by assumption. lra.
    + intro Hs. unfold kineticChar. cbv zeta.
      case_cmp; [|reflexivity]. exfalso.
      rewrite H0 in q by assumption. lra.
  - intros txt progress idx c Hc. unfold kinetic. cbv zeta.
    rewrite list_lookup_imap, Hc. simpl. do 3 f_equal.
    clear. induction txt as [|a txt IH]; simpl; [reflexivity | now rewrite IH].
  - repeat split; q_eval.
  - split; [q_eval|]. split; [q_eval|]. split; [q_eval|]. split.
    + intro c. unfold kineticChar. cbv zeta.
      replace (kineticClampedP 5 4 0.5 >? 0) with false by (vm_compute; reflexivity).
      reflexivity.
    + intro progress. rewrite kineticClampedP_partway.
      assert (Es : kineticStartP 5 4 == 0.64) by q_eval.
      assert (Ee : kineticEndP 5 4 == 0.94) by q_eval.
      lra.
Qed.

(** C8 as stated fails: with 5 characters and progress 0.5 the clamped
    progress of character 4 is 0, not strictly between 0 and 1. *)
Lemma C8_counterexample :
  kineticClampedP 5 4 0.5 == 0 /\
  ~ (0 < kineticClampedP 5 4 0.5 /\ kineticClampedP 5 4 0.5 < 1).
Proof.
  split; [q_eval|]. intros [H _]. revert H. q_eval.
Qed.

(** The theorem at a progress inside the window of character 4. *)
Lemma C8_kinetic_window_witness :
  kineticClampedP 5 4 0.79 == (0.79 - kineticStartP 5 4) / 0.3.
Proof.
  assert (Hidx : (4 < 5)%nat) by lia.
  pose proof (proj1 (proj2 C8_kinetic_window) 5%nat 4%nat 0.79 Hidx) as H.
  cbv zeta in H. destruct H as (_ & _ & _ & H & _).
  apply H; q_eval.
Defined.

(** ** Particles: one update *)

Lemma advance_fields (M : Platform) (p : Particle.t) (beatFactor speedFactor : Q) :
  let p' := Particle.advance M p beatFactor speedFactor in
  let drift := match Particle.style p with
               | OCEAN | SNOW => Math_sin M (Particle.life p * 0.05) * 0.5
               | _ => 0
               end in
  Particle.x p' == Particle.x p + Particle.vx p * speedFactor * beatFactor + drift /\
  Particle.y p' == Particle.y p + Particle.vy p * speedFactor * beatFactor /\
  Particle.angle p'
    = Particle.angle p + Particle.rotationSpeed p * beatFactor * speedFactor /\
  Particle.life p' = Particle.life p + 1 /\
  Particle.maxLife p' = Particle.maxLife p /\
  Particle.style p' = Particle.style p.
Proof.
  unfold Particle.advance. destruct (Particle.style p) eqn:E; simpl;
    rewrite ?E; repeat split; try reflexivity; ring.
Qed.

Lemma boundary_fields (M : Platform) (a : Particle.t) (width height : Q) (n : nat) :
  let p' := fst (Particle.boundary M a width height n) in
  Particle.life p' = (if wraps a height then 0 else Particle.life a) /\
  Particle.maxLife p' = Particle.maxLife a /\
  Particle.style p' = Particle.style a /\
  (wraps a height = false ->
   Particle.x p' = Particle.x a /\ Particle.y p' = Particle.y a /\
   Particle.angle p' = Particle.angle a).
Proof.
  destruct a as [x y vx vy size color life maxLife style angle rot type].
  unfold Particle.boundary, wraps, bind, ret, random.
  cbn [Particle.style Particle.x Particle.y].
  destruct style;
    try (destruct (y <? -50); simpl; repeat split; intros;
         first [reflexivity | discriminate]);
    try (destruct (y >? height + 50); simpl; repeat split; intros;
         first [reflexivity | discriminate]);
    destruct ((x <? 0) || (x >? width)); cbn [Particle.y Particle.set_vx];
    destruct ((y <? 0) || (y >? height)); simpl; repeat split; reflexivity.
Qed.

Lemma update_fields (M : Platform) (p : Particle.t)
    (width height beatFactor speedFactor : Q) (n : nat) :
  let a := Particle.advance M p beatFactor speedFactor in
  let p' := fst (Particle.update M p width height beatFactor speedFactor n) in
  Particle.life p' = (if wraps a height then 0 else Particle.life p + 1) /\
  Particle.maxLife p' = Particle.maxLife p /\
  Particle.style p' = Particle.style p /\
  (wraps a height = false ->
   Particle.x p' = Particle.x a /\ Particle.y p' = Particle.y a /\
   Particle.angle p' = Particle.angle a).
Proof.
  intros a p'.
  destruct (advance_fields M p beatFactor speedFactor)
    as (_ & _ & _ & Hl & Hm & Hs).
  fold a in Hl, Hm, Hs.
  destruct (boundary_fields M a width height n) as (Bl & Bm & Bs & Bx).
  subst p'. unfold Particle.update. fold a.
  rewrite Bl, Bm, Bs, Hl, Hm, Hs. auto.
Qed.

(** ** Particles: the removal test *)

Lemma removes_spec (s : VisualSettings) (width height : Q) (p : Particle.t) :
  removes s width height p = true
  <-> removal_policy (particleStyle s) width height p.
Proof.
  unfold removes, removal_policy, expired, outOfBounds.
  destruct (particleStyle s); simpl;
    repeat case_cmp; simpl; split; intros; try reflexivity;
    try discriminate; try lra;
    repeat match goal with
           | H : _ \/ _ |- _ => destruct H
           end; try lra; auto.
Qed.

Lemma removes_expired (s : VisualSettings) (width height : Q) (p : Particle.t) :
  removes s width height p = false -> Particle.life p < Particle.maxLife p.
Proof.
  intro H. apply Qnot_le_lt. intro Hexp.
  assert (removes s width height p = true); [|congruence].
  apply removes_spec. unfold removal_policy, expired.
  destruct (wraparound (particleStyle s)); auto.
Qed.

(** ** Particles: the pass over the pool *)

Section Pass.

Variable M : Platform.
Variable r : Refs.
Variable s : VisualSettings.
Variable bf : Q.

Lemma forEach_from_past_end (count k : nat) (e : Engine) :
  (length (particlesRef e) <= k)%nat ->
  forEach_from count k (visit M r s bf) e = e.
Proof.
  revert k. induction count as [|count IH]; intros k Hk; simpl; [reflexivity|].
  rewrite lookup_ge_None_2 by assumption. apply IH. lia.
Qed.

Lemma forEach_from_sweep (count : nat) :
  forall (suf pre : list Particle.t) (drawn : list CanvasOp) (n : nat),
    (length suf <= count)%nat ->
    forEach_from count (length pre) (visit M r s bf)
      {| particlesRef := pre ++ suf; ctx := drawn; rng := n |}
    = let e := sweep M r s bf suf drawn n in
      {| particlesRef := pre ++ particlesRef e; ctx := ctx e; rng := rng e |}.
Proof.
  induction count as [|count IH]; intros suf pre drawn n Hlen.
  - destruct suf; [reflexivity | simpl in Hlen; lia].
  - destruct suf as [|p rest].
    + rewrite forEach_from_past_end; [reflexivity|].
      simpl. rewrite length_app. simpl. lia.
    + cbn [forEach_from particlesRef].
      rewrite list_lookup_middle by reflexivity.
      unfold visit. cbn [sweep particlesRef ctx rng].
      destruct (Particle.update M p (width r) (height r) bf
                  (nullish (particleSpeed s) 1.0) n) as [p' n'].
      rewrite insert_app_r_alt by lia. rewrite Nat.sub_diag. simpl insert.
      destruct (removes s (width r) (height r) p').
      * rewrite delete_middle.
        destruct rest as [|q rest'].
        -- rewrite forEach_from_past_end; [reflexivity|].
           simpl. rewrite length_app. simpl. lia.
        -- replace (S (length pre)) with (length (pre ++ [q]))
             by (rewrite length_app; simpl; lia).
           replace (pre ++ q :: rest') with ((pre ++ [q]) ++ rest')
             by (rewrite <- app_assoc; reflexivity).
           rewrite IH by (simpl in Hlen; lia).
           cbv zeta. simpl. rewrite <- app_assoc. reflexivity.
      * replace (S (length pre)) with (length (pre ++ [p']))
          by (rewrite length_app; simpl; lia).
        replace (pre ++ p' :: rest) with ((pre ++ [p']) ++ rest)
          by (rewrite <- app_assoc; reflexivity).
        rewrite IH by (simpl in Hlen; lia).
        cbv zeta. simpl. rewrite <- app_assoc. reflexivity.
Qed.

Lemma forEach_sweep (e : Engine) :
  forEach (visit M r s bf) e = sweep M r s bf (particlesRef e) (ctx e) (rng e).
Proof.
  destruct e as [pool drawn n]. unfold forEach. cbn [particlesRef ctx rng].
  pose proof (forEach_from_sweep (length pool) pool [] drawn n (le_n _)) as H.
  simpl in H. rewrite H. now destruct (sweep M r s bf pool drawn n).
Qed.

End Pass.

(** ** Particles: what stays in the pool and what is drawn *)

Lemma update_drawable (M : Platform) (p : Particle.t)
    (width height beatFactor speedFactor : Q) (n : nat) :
  alive p ->
  drawable (fst (Particle.update M p width height beatFactor speedFactor n)).
Proof.
  intros [H0 H1].
  destruct (update_fields M p width height beatFactor speedFactor n)
    as (Hl & Hm & _).
  cbv zeta in Hl, Hm. unfold drawable. rewrite Hl, Hm.
  destruct (wraps _ _); lra.
Qed.

Lemma sweep_invariant (M : Platform) (r : Refs) (s : VisualSettings) (bf : Q)
    (k : nat) :
  forall (pool : list Particle.t) (drawn : list CanvasOp) (n : nat),
    (length pool <= k)%nat ->
    exists ds,
      ctx (sweep M r s bf pool drawn n) = drawn ++ map DrawParticle ds /\
      (Forall alive pool ->
       Forall alive (particlesRef (sweep M r s bf pool drawn n)) /\
       Forall drawable ds).
Proof.
  induction k as [|k IH]; intros pool drawn n Hlen.
  - destruct pool; [|simpl in Hlen; lia].
    exists []. simpl. rewrite app_nil_r. auto.
  - destruct pool as [|p rest].
    { exists []. simpl. rewrite app_nil_r. auto. }
    cbn [sweep].
    pose proof (update_drawable M p (width r) (height r) bf
                  (nullish (particleSpeed s) 1.0) n) as Hdraw.
    destruct (Particle.update M p (width r) (height r) bf
                (nullish (particleSpeed s) 1.0) n) as [p' n'].
    cbn [fst] in Hdraw.
    destruct (removes s (width r) (height r) p') eqn:R.
    + destruct rest as [|q rest'].
      * exists [p']. cbn [ctx particlesRef map]. split; [reflexivity|].
        intro Hall. inversion Hall; subst. auto.
      * destruct (IH rest' (drawn ++ [DrawParticle p']) n') as (ds & E & Hinv).
        { simpl in Hlen. lia. }
        exists (p' :: ds). cbn [ctx particlesRef map]. split.
        -- rewrite E, <- app_assoc. reflexivity.
        -- intro Hall. inversion Hall as [|? ? Hp Hrest]; subst.
           inversion Hrest as [|? ? Hq Hrest']; subst.
           destruct (Hinv Hrest'). auto.
    + destruct (IH rest (drawn ++ [DrawParticle p']) n') as (ds & E & Hinv).
      { simpl in Hlen. lia. }
      exists (p' :: ds). cbn [ctx particlesRef map]. split.
      * rewrite E, <- app_assoc. reflexivity.
      * intro Hall. inversion Hall as [|? ? Hp Hrest]; subst.
        destruct (Hinv Hrest). split; [|auto].
        constructor; [|assumption].
        split; [apply (Hdraw Hp) | apply (removes_expired _ _ _ _ R)].
Qed.

Lemma new_alive (M : Platform) (w h : Q) (c : string) (st : ParticleStyle)
    (sm : Q) (n : nat) :
  (forall k, 0 <= Math_random M k) ->
  alive (fst (Particle.new M w h c st sm n)).
Proof.
  intro Hrand. unfold Particle.new, bind, ret, random, alive.
  destruct st; simpl; (split; [lra|]);
    match goal with
    | |- 0 < Math_random M ?k * _ + _ => pose proof (Hrand k); lra
    end.
Qed.

Lemma bind_random {A} (M : Platform) (k : Q -> Rand A) (n : nat) :
  bind (random M) k n = k (Math_random M n) (S n).
Proof. reflexivity. Qed.

Lemma spawn_invariant (M : Platform) (r : Refs) (s : VisualSettings) (e : Engine) :
  ctx (spawn M r s e) = ctx e /\
  ((forall k, 0 <= Math_random M k) ->
   Forall alive (particlesRef e) -> Forall alive (particlesRef (spawn M r s e))).
Proof.
  unfold spawn.
  destruct (inject_Z (Z.of_nat (length (particlesRef e))) <? particleCount s);
    [|auto].
  rewrite bind_random.
  pose proof (new_alive M (width r) (height r)
    (if Math_random M (rng e) >? 0.5 then primaryColor s else secondaryColor s)
    (particleStyle s) (nullish (particleSize s) 1.0) (S (rng e))) as Hnew.
  destruct (Particle.new M _ _ _ _ _ _) as [p n]. cbn [fst] in Hnew.
  cbn [ctx particlesRef]. split; [reflexivity|].
  intros Hrand Hall. apply Forall_app. split; [assumption|].
  constructor; [auto | constructor].
Qed.

Lemma particles_invariant (M : Platform) (r : Refs) (s : VisualSettings)
    (bf : Q) (e : Engine) :
  exists ds,
    ctx (particles M r s bf e) = ctx e ++ map DrawParticle ds /\
    ((forall k, 0 <= Math_random M k) ->
     Forall alive (particlesRef e) ->
     Forall alive (particlesRef (particles M r s bf e)) /\ Forall drawable ds).
Proof.
  unfold particles. rewrite forEach_sweep.
  destruct (spawn_invariant M r s e) as [Ec Hs].
  destruct (sweep_invariant M r s bf _ (particlesRef (spawn M r s e))
              (ctx (spawn M r s e)) (rng (spawn M r s e)) (le_n _))
    as (ds & E & Hinv).
  exists ds. split.
  - rewrite E, Ec. reflexivity.
  - intros Hrand Hall. apply Hinv. now apply Hs.
Qed.

Lemma drawBackground_ops (r : Refs) (s : VisualSettings) (q : Particle.t) :
  ~ In (DrawParticle q) (drawBackground r s).
Proof.
  unfold drawBackground, drawCover. cbv zeta.
  repeat match goal with
         | |- context [if ?c then _ else _] => destruct c
         | |- context [match ?o with Some _ => _ | None => _ end] => destruct o
         end; simpl; intros H;
    repeat (destruct H as [H|H]; try discriminate); assumption.
Qed.

Lemma bars_from_ops (d : list Z) (c : string) (h bw bf : Q) (q : Particle.t)
    (n : nat) :
  forall i barX, ~ In (DrawParticle q) (bars_from d c h bw bf i barX n).
Proof.
  induction n as [|n IH]; intros i barX; simpl; [tauto|].
  intros [H|H]; [discriminate | now apply IH in H].
Qed.

Lemma audioBars_ops (r : Refs) (s : VisualSettings) (bf : Q) (q : Particle.t) :
  ~ In (DrawParticle q) (audioBars r s bf).
Proof.
  unfold audioBars. destruct (analyserRef r); [apply bars_from_ops | simpl; tauto].
Qed.

Lemma lyricLines_ops (st : StateRef) (q : Particle.t) :
  ~ In (DrawParticle q) (lyricLines st).
Proof.
  unfold lyricLines. cbv zeta. rewrite in_flat_map.
  intros (l & _ & H). destruct (lyricCall _ _ l) as [[ph pr]|]; simpl in H.
  - destruct H as [H|[]]. discriminate.
  - assumption.
Qed.

(** The canvas after a frame: what was there, the clearing, the
    background, the particles drawn, the bars and the lyric lines. *)
Lemma animate_ctx (M : Platform) (r : Refs) (st : StateRef) (e : Engine) :
  exists ds,
    ctx (animate M r st e)
    = ctx e ++ [ClearRect (width r) (height r)]
        ++ drawBackground r (settings st)
        ++ map DrawParticle ds
        ++ audioBars r (settings st) (beatFactor (analyserRef r) (settings st))
        ++ lyricLines st /\
    ((forall k, 0 <= Math_random M k) ->
     Forall alive (particlesRef e) ->
     Forall alive (particlesRef (animate M r st e)) /\ Forall drawable ds).
Proof.
  unfold animate. cbv zeta. cbn [particlesRef ctx rng].
  destruct (particles_invariant M r (settings st)
              (beatFactor (analyserRef r) (settings st))
              {| particlesRef := particlesRef e;
                 ctx := (ctx e ++ [ClearRect (width r) (height r)])
                          ++ drawBackground r (settings st);
                 rng := rng e |}) as (ds & E & Hinv).
  exists ds. rewrite E. cbn [ctx particlesRef]. split.
  - rewrite <- !app_assoc. reflexivity.
  - exact Hinv.
Qed.

(** ** Removal *)

Lemma delete_insert_same {A} (l : list A) (i : nat) (v : A) :
  delete i (<[i := v]> l) = delete i l.
Proof.
  revert i. induction l as [|a l IH]; intros [|i]; simpl; try reflexivity.
  now rewrite IH.
Qed.

Lemma visit_pool (M : Platform) (r : Refs) (s : VisualSettings) (bf : Q)
    (p : Particle.t) (index : nat) (e : Engine) :
  let p' := fst (Particle.update M p (width r) (height r) bf
                   (nullish (particleSpeed s) 1.0) (rng e)) in
  particlesRef (visit M r s bf p index e)
  = if removes s (width r) (height r) p'
    then delete index (particlesRef e)
    else <[index := p']> (particlesRef e).
Proof.
  unfold visit.
  destruct (Particle.update M p (width r) (height r) bf
              (nullish (particleSpeed s) 1.0) (rng e)) as [p' n].
  cbn [fst]. destruct (removes s (width r) (height r) p'); cbn [particlesRef].
  - apply delete_insert_same.
  - reflexivity.
Qed.

(** C2, as the code has it.  A particle that the pass has updated and
    drawn is removed from the pool exactly when the removal policy of
    the currently selected style [settings.particleStyle] holds of it:
    age at least the maximal age when that style is OCEAN, MUSICAL or
    SNOW, and age at least the maximal age or a position more than 100
    units outside the canvas otherwise.  For a particle whose own style
    is the selected one this is the policy of its own style. *)
Theorem C2_removal_policy (M : Platform) (r : Refs) (s : VisualSettings)
    (bf : Q) (e : Engine) (index : nat) (p : Particle.t) :
  particlesRef e !! index = Some p ->
  let p' := fst (Particle.update M p (width r) (height r) bf
                   (nullish (particleSpeed s) 1.0) (rng e)) in
  let e' := visit M r s bf p index e in
  (removal_policy (particleStyle s) (width r) (height r) p' ->
   particlesRef e' = delete index (particlesRef e)) /\
  (~ removal_policy (particleStyle s) (width r) (height r) p' ->
   particlesRef e' = <[index := p']> (particlesRef e) /\
   particlesRef e' !! index = Some p') /\
  (Particle.style p = particleStyle s ->
   (removal_policy (Particle.style p') (width r) (height r) p'
    <-> removal_policy (particleStyle s) (width r) (height r) p')).
Proof.
  intros Hp p' e'. subst e'. rewrite visit_pool. fold p'.
  pose proof (removes_spec s (width r) (height r) p') as Hspec.
  split; [|split].
  - intro Hpol. apply Hspec in Hpol. now rewrite Hpol.
  - intro Hpol. destruct (removes s (width r) (height r) p').
    + exfalso. apply Hpol, Hspec. reflexivity.
    + split; [reflexivity|].
      apply list_lookup_insert_eq. now apply lookup_lt_Some in Hp.
  - intro Hst.
    destruct (update_fields M p (width r) (height r) bf
                (nullish (particleSpeed s) 1.0) (rng e)) as (_ & _ & Hs & _).
    fold p' in Hs. rewrite Hs, Hst. reflexivity.
Qed.

(** C2 as stated fails: under the STANDARD setting, an OCEAN particle far
    to the left of the canvas is removed by the pass although its age is
    below its maximal age. *)
Lemma C2_counterexample :
  let e := {| particlesRef := [sampleStray]; ctx := []; rng := 0 |} in
  let p' := fst (Particle.update samplePlatform sampleStray 1920 1080 1 1.0 0%nat) in
  Particle.style p' = OCEAN /\
  Particle.life p' < Particle.maxLife p' /\
  ~ removal_policy (Particle.style p') 1920 1080 p' /\
  particlesRef (forEach (visit samplePlatform sampleRefs sampleSettings 1) e) = [].
Proof.
  cbv zeta. split; [reflexivity|]. split; [q_eval|]. split.
  - unfold removal_policy, expired. simpl. apply Qlt_not_le. q_eval.
  - vm_compute. reflexivity.
Qed.

(** The theorem at the sample particle, alone in the pool. *)
Lemma C2_removal_policy_witness :
  let e := {| particlesRef := [sampleStandard]; ctx := []; rng := 0 |} in
  let p' := fst (Particle.update samplePlatform sampleStandard
                   (width sampleRefs) (height sampleRefs) 1
                   (nullish (particleSpeed sampleSettings) 1.0) (rng e)) in
  particlesRef (visit samplePlatform sampleRefs sampleSettings 1
                  sampleStandard 0%nat e) !! 0%nat = Some p'.
Proof.
  cbv zeta.
  refine (proj2 (proj1 (proj2 (C2_removal_policy samplePlatform sampleRefs
            sampleSettings 1
            {| particlesRef := [sampleStandard]; ctx := []; rng := 0 |}
            0%nat sampleStandard eq_refl)) _)).
  unfold removal_policy, expired, outOfBounds. simpl.
  intros [H|[H|[H|[H|H]]]]; q_absurd H.
Defined.

(** C10. The removal test does not look at the particle's own style: it
    is the removal policy of the currently selected style.  A particle
    of a wraparound style that is more than 100 units outside the canvas
    after its update is therefore removed by the pass as soon as the
    selected style is not a wraparound style. *)
Theorem C10_policy_follows_setting (M : Platform) (r : Refs)
    (s : VisualSettings) (bf : Q) :
  (forall p st',
     removes s (width r) (height r) (Particle.set_style p st')
     = removes s (width r) (height r) p) /\
  (forall p,
     removes s (width r) (height r) p = true
     <-> removal_policy (particleStyle s) (width r) (height r) p) /\
  (forall (e : Engine) (index : nat) (p : Particle.t),
     let p' := fst (Particle.update M p (width r) (height r) bf
                      (nullish (particleSpeed s) 1.0) (rng e)) in
     particlesRef e !! index = Some p ->
     wraparound (Particle.style p) = true ->
     wraparound (particleStyle s) = false ->
     outOfBounds (width r) (height r) p' ->
     particlesRef (visit M r s bf p index e) = delete index (particlesRef e)).
Proof.
  split; [|split].
  - intros p st'. reflexivity.
  - intro p. apply removes_spec.
  - intros e index p p' _ _ Hset Hout. rewrite visit_pool. fold p'.
    replace (removes s (width r) (height r) p') with true; [reflexivity|].
    symmetry. apply removes_spec. unfold removal_policy. rewrite Hset. auto.
Qed.

(** The theorem at the OCEAN particle left of the canvas, under the
    STANDARD setting. *)
Lemma C10_policy_follows_setting_witness :
  particlesRef (visit samplePlatform sampleRefs sampleSettings 1 sampleStray 0%nat
                  {| particlesRef := [sampleStray]; ctx := []; rng := 0 |})
  = delete 0%nat [sampleStray].
Proof.
  refine (proj2 (proj2 (C10_policy_follows_setting samplePlatform sampleRefs
            sampleSettings 1))
            {| particlesRef := [sampleStray]; ctx := []; rng := 0 |}
            0%nat sampleStray eq_refl eq_refl eq_refl _).
  left. q_eval.
Defined.

(** ** Age *)

Lemma animate_drawn (M : Platform) (r : Refs) (st : StateRef) (e : Engine) :
  (forall k, 0 <= Math_random M k) ->
  Forall alive (particlesRef e) ->
  Forall alive (particlesRef (animate M r st e)) /\
  (forall q, In (DrawParticle q) (ctx (animate M r st e)) ->
             In (DrawParticle q) (ctx e) \/ drawable q).
Proof.
  intros Hrand Hall.
  destruct (animate_ctx M r st e) as (ds & E & Hinv).
  destruct (Hinv Hrand Hall) as [Halive Hdrawn].
  split; [assumption|].
  intros q Hq. rewrite E in Hq.
  repeat (apply in_app_or in Hq; destruct Hq as [Hq|Hq]).
  - now left.
  - destruct Hq as [Hq|[]]. discriminate.
  - now apply drawBackground_ops in Hq.
  - right. apply in_map_iff in Hq. destruct Hq as (q' & Eq & Hin).
    injection Eq as <-.
    rewrite List.Forall_forall in Hdrawn. now apply Hdrawn.
  - now apply audioBars_ops in Hq.
  - now apply lyricLines_ops in Hq.
Qed.

Lemma frames_drawn (M : Platform) (inputs : list (Refs * StateRef)) :
  (forall k, 0 <= Math_random M k) ->
  forall e,
    Forall alive (particlesRef e) ->
    (forall q, In (DrawParticle q) (ctx e) -> drawable q) ->
    forall q, In (DrawParticle q) (ctx (frames M inputs e)) -> drawable q.
Proof.
  intro Hrand. induction inputs as [|[r st] rest IH]; intros e Hall Hctx q Hq.
  - now apply Hctx.
  - simpl in Hq. destruct (animate_drawn M r st e Hrand Hall) as [Halive Hd].
    apply (IH (animate M r st e)); [assumption | | assumption].
    intros q' Hq'. destruct (Hd q' Hq'); auto.
Qed.

(** C3, as the code has it.  A call of [update] increases the age by
    exactly 1, unless the particle wraps around in that call (OCEAN and
    MUSICAL above the top margin, SNOW below the bottom margin), in which
    case its age is reset to 0.  In a pool whose particles all have an
    age from 0 up to, and not reaching, their maximal age, a frame draws
    particles only with an age below the maximal age plus 1, and leaves
    such a pool behind; so do all the frames that start from the empty
    pool.  ([Math.random()] is taken not to be negative.) *)
Theorem C3_age_and_draw (M : Platform) :
  (forall (p : Particle.t) (w h bf sf : Q) (n : nat),
     let a := Particle.advance M p bf sf in
     let p' := fst (Particle.update M p w h bf sf n) in
     Particle.life p' = (if wraps a h then 0 else Particle.life p + 1)) /\
  (forall (r : Refs) (st : StateRef) (e : Engine),
     (forall k, 0 <= Math_random M k) ->
     Forall alive (particlesRef e) ->
     Forall alive (particlesRef (animate M r st e)) /\
     (forall q, In (DrawParticle q) (ctx (animate M r st e)) ->
                In (DrawParticle q) (ctx e) \/ drawable q)) /\
  (forall (inputs : list (Refs * StateRef)) (n : nat),
     (forall k, 0 <= Math_random M k) ->
     forall q,
       In (DrawParticle q)
          (ctx (frames M inputs {| particlesRef := []; ctx := []; rng := n |})) ->
       drawable q).
Proof.
  split; [|split].
  - intros p w h bf sf n. apply update_fields.
  - intros r st e. apply animate_drawn.
  - intros inputs n Hrand. apply (frames_drawn M inputs Hrand).
    + constructor.
    + intros q [].
Qed.

(** C3 as stated fails twice: the MUSICAL particle that leaves the top
    margin comes out of [update] with age 0, not 11; and the particle of
    age 150 and maximal age 150.5 is handed to [draw] with age 151. *)
Lemma C3_counterexample :
  (let p' := fst (Particle.update samplePlatform sampleRising
                    1920 1080 1 1 0%nat) in
   Particle.life sampleRising == 10 /\ Particle.life p' == 0) /\
  (let e := {| particlesRef := [sampleFractional]; ctx := []; rng := 0 |} in
   let q' := fst (Particle.update samplePlatform sampleFractional
                    1920 1080 1 1.0 0%nat) in
   ctx (forEach (visit samplePlatform sampleRefs sampleSettings 1) e)
   = [DrawParticle q'] /\
   Particle.maxLife q' < Particle.life q').
Proof.
  cbv zeta. split; split.
  - q_eval.
  - q_eval.
  - vm_compute. reflexivity.
  - q_eval.
Qed.

Lemma sample_random_nonneg (k : nat) : 0 <= Math_random samplePlatform k.
Proof.
  simpl. apply Qle_shift_div_l; [reflexivity|].
  rewrite Qmult_0_l. change 0 with (inject_Z 0). rewrite <- Zle_Qle. lia.
Qed.

(** The theorem at the sample platform and the sample pool. *)
Lemma C3_age_and_draw_witness :
  Forall alive
    (particlesRef (animate samplePlatform sampleRefs sampleState sampleEngine)).
Proof.
  refine (proj1 (proj1 (proj2 (C3_age_and_draw samplePlatform))
                   sampleRefs sampleState sampleEngine
                   sample_random_nonneg _)).
  repeat constructor; q_eval.
Defined.

(** ** The pass and the particle after a removed one *)

Lemma forEach_skips_successor (M : Platform) (r : Refs) (s : VisualSettings)
    (bf : Q) (p q : Particle.t) (rest : list Particle.t)
    (drawn : list CanvasOp) (n : nat) :
  let u := Particle.update M p (width r) (height r) bf
             (nullish (particleSpeed s) 1.0) n in
  removes s (width r) (height r) (fst u) = true ->
  forEach (visit M r s bf)
    {| particlesRef := p :: q :: rest; ctx := drawn; rng := n |}
  = let e := sweep M r s bf rest (drawn ++ [DrawParticle (fst u)]) (snd u) in
    {| particlesRef := q :: particlesRef e; ctx := ctx e; rng := rng e |}.
Proof.
  intros u Hrem. rewrite forEach_sweep. cbn [particlesRef ctx rng sweep].
  fold u. destruct u as [p' n']. cbn [fst snd] in *. now rewrite Hrem.
Qed.

(** C4 at a failing input.  In the pool of a particle that expires in
    this frame followed by a second particle, the pass updates, draws
    and removes the first, and never reaches the second: it stays in the
    pool with its position, angle and age unchanged, and is not drawn. *)
Theorem C4_successor_skipped (M : Platform) :
  let e := {| particlesRef := [sampleExpiring; sampleStandard];
              ctx := []; rng := 0 |} in
  let e' := forEach (visit M sampleRefs sampleSettings 1) e in
  particlesRef e' = [sampleStandard] /\
  ctx e' = [DrawParticle (fst (Particle.update M sampleExpiring
                                 1920 1080 1 1.0 0%nat))].
Proof.
  cbv zeta.
  rewrite (forEach_skips_successor M sampleRefs sampleSettings 1
             sampleExpiring sampleStandard [] [] 0%nat)
    by (vm_compute; reflexivity).
  split; reflexivity.
Qed.

(** ** Background *)

Lemma bgImageAfter_snoc (history : list ImageEvent) (ev : ImageEvent) :
  bgImageAfter (history ++ [ev]) = imageEvent ev (bgImageAfter history).
Proof. unfold bgImageAfter. now rewrite fold_left_app. Qed.

Lemma snoc_split {A} (pre post evs : list A) (x y : A) :
  pre ++ x :: post = evs ++ [y] ->
  (post = [] /\ pre = evs /\ x = y) \/
  (exists post', post = post' ++ [y] /\ evs = pre ++ x :: post').
Proof.
  destruct post as [|z post] using rev_ind; intro E.
  - left. apply app_inj_tail in E. tauto.
  - right. clear IHpost. exists post.
    change (pre ++ x :: post ++ [z]) with (pre ++ (x :: post) ++ [z]) in E.
    rewrite app_assoc in E. apply app_inj_tail in E.
    destruct E as [E ->]. auto.
Qed.

(** The ref is [null] exactly when every image that loaded was followed
    by a run of the effect with an empty setting. *)
Lemma bgImageAfter_null (history : list ImageEvent) :
  bgImageAfter history = None <->
  (forall pre img post,
     history = pre ++ ImageOnload img :: post ->
     exists backgroundImage,
       In (BackgroundImageEffect backgroundImage) post /\
       truthy backgroundImage = false).
Proof.
  induction history as [|ev history IH] using rev_ind.
  - split; [|reflexivity]. intros _ pre img post E.
    destruct pre; discriminate.
  - rewrite bgImageAfter_snoc. destruct ev as [bg|img0]; cbn [imageEvent].
    + destruct (truthy bg) eqn:Hbg.
      * rewrite IH. split; intros H pre img post E.
        -- symmetry in E. apply snoc_split in E.
           destruct E as [(_ & _ & E)|(post' & -> & ->)]; [discriminate|].
           destruct (H pre img post' eq_refl) as (b & Hin & Hb).
           exists b. split; [apply in_or_app; auto | assumption].
        -- subst history.
           destruct (H pre img (post ++ [BackgroundImageEffect bg]))
             as (b & Hin & Hb).
           { rewrite <- app_assoc. reflexivity. }
           exists b. split; [|assumption].
           apply in_app_or in Hin. destruct Hin as [Hin|[Hin|[]]];
             [assumption|]. injection Hin as <-. congruence.
      * split; [|reflexivity]. intros _ pre img post E.
        symmetry in E. apply snoc_split in E.
        destruct E as [(_ & _ & E)|(post' & -> & _)]; [discriminate|].
        exists bg. split; [apply in_or_app; right; left; reflexivity
                          | assumption].
    + split; [discriminate|]. intro H.
      destruct (H history img0 [] eq_refl) as (b & [] & _).
Qed.

(** C7. In VIDEO mode with the video source absent (or the empty string)
    or a ready state below 2, the background of the frame is the flat
    fill with [backgroundColor].  In IMAGE mode it is the flat fill
    exactly when [bgImageRef] holds no image; when the ref holds one,
    that image is drawn, cover-cropped and under the scrim.  The ref
    holds no image exactly when every image that finished loading was
    followed by a run of the effect with an empty setting; a run of the
    effect that starts loading an image leaves the ref as it is, so
    that the frames drawn while a replacement loads show the image
    loaded before.  In every case the frame goes on after the
    background with the particles, the bars and the lyric lines. *)
Theorem C7_background_fallback (M : Platform) (r : Refs) (st : StateRef)
    (e : Engine) :
  let s := settings st in
  let fill := [FillRect (backgroundColor s) 0 0 (width r) (height r)] in
  (backgroundMode s = VIDEO ->
   truthy (backgroundVideo s) = false \/ (readyState (bgVideoRef r) < 2)%nat ->
   drawBackground r s = fill) /\
  (backgroundMode s = IMAGE ->
   (drawBackground r s = fill <-> bgImageRef r = None) /\
   (forall img, bgImageRef r = Some img ->
      drawBackground r s
      = drawCover (nullish (backgroundBrightness s) 1.0) (width r) (height r)
          (ImageSource img) (naturalWidth img) (naturalHeight img))) /\
  (forall history,
     bgImageAfter history = None <->
     (forall pre img post,
        history = pre ++ ImageOnload img :: post ->
        exists backgroundImage,
          In (BackgroundImageEffect backgroundImage) post /\
          truthy backgroundImage = false)) /\
  (forall history backgroundImage,
     truthy backgroundImage = true ->
     bgImageAfter (history ++ [BackgroundImageEffect backgroundImage])
     = bgImageAfter history) /\
  (exists ds,
     ctx (animate M r st e)
     = ctx e ++ [ClearRect (width r) (height r)]
         ++ drawBackground r s
         ++ map DrawParticle ds
         ++ audioBars r s (beatFactor (analyserRef r) s)
         ++ lyricLines st).
Proof.
  intros s fill. split; [|split; [|split; [|split]]].
  - intros Hmode Hvid. unfold drawBackground. cbv zeta. rewrite Hmode.
    cbn [is_VIDEO is_IMAGE andb]. destruct Hvid as [Hv|Hv].
    + rewrite Hv. reflexivity.
    + replace (2 <=? readyState (bgVideoRef r))%nat with false
        by (symmetry; apply Nat.leb_gt; assumption).
      rewrite andb_false_r. reflexivity.
  - intro Hmode. unfold drawBackground. cbv zeta. rewrite Hmode.
    cbn [is_VIDEO is_IMAGE andb]. split.
    + destruct (bgImageRef r) as [img|]; [|tauto].
      unfold drawCover. cbv zeta.
      split; [|discriminate].
      destruct (_ >? _); discriminate.
    + intros img ->. reflexivity.
  - apply bgImageAfter_null.
  - intros history bg Hbg. rewrite bgImageAfter_snoc. cbn [imageEvent].
    now rewrite Hbg.
  - destruct (animate_ctx M r st e) as (ds & E & _).
    exists ds. exact E.
Qed.

(** The theorem at a frame in VIDEO mode whose video has no data yet. *)
Lemma C7_background_fallback_witness :
  let s := {| primaryColor := "#fbbf24"; secondaryColor := "#ea580c";
              backgroundColor := "#1c1917"; particleCount := 50;
              particleSpeed := Some 1.0; particleSize := None;
              beatSensitivity := 1.0; backgroundMode := VIDEO;
              backgroundVideo := Some "blob:clip"%string;
              backgroundBrightness := Some 1.0;
              animationType := SLIDE_UP; transitionDuration := 0.5;
              particleStyle := STANDARD |} in
  drawBackground sampleRefs s = [FillRect "#1c1917" 0 0 1920 1080].
Proof.
  cbv zeta.
  refine (proj1 (C7_background_fallback samplePlatform sampleRefs
            {| lyrics := [sampleLine];
               settings := {| primaryColor := "#fbbf24";
                              secondaryColor := "#ea580c";
                              backgroundColor := "#1c1917"; particleCount := 50;
                              particleSpeed := Some 1.0; particleSize := None;
                              beatSensitivity := 1.0; backgroundMode := VIDEO;
                              backgroundVideo := Some "blob:clip"%string;
                              backgroundBrightness := Some 1.0;
                              animationType := SLIDE_UP;
                              transitionDuration := 0.5;
                              particleStyle := STANDARD |};
               currentTime := 10.25 |}
            sampleEngine) eq_refl _).
  right. simpl. lia.
Defined.

(** C7 as stated fails.  A first image has loaded, and the setting has
    changed to a second image that has not finished loading: the frame
    in IMAGE mode draws the first image under the scrim, not the flat
    fill. *)
Lemma C7_counterexample :
  let first := {| naturalWidth := 800; naturalHeight := 600 |} in
  let history := [ BackgroundImageEffect (Some "blob:first"%string);
                   ImageOnload first;
                   BackgroundImageEffect (Some "blob:second"%string) ] in
  let r := set_bgImageRef (bgImageAfter history) sampleRefs in
  let s := {| primaryColor := "#fbbf24"; secondaryColor := "#ea580c";
              backgroundColor := "#1c1917"; particleCount := 50;
              particleSpeed := Some 1.0; particleSize := None;
              beatSensitivity := 1.0; backgroundMode := IMAGE;
              backgroundVideo := None;
              backgroundBrightness := Some 1.0;
              animationType := SLIDE_UP; transitionDuration := 0.5;
              particleStyle := STANDARD |} in
  backgroundMode s = IMAGE /\
  drawBackground r s <> [FillRect (backgroundColor s) 0 0 (width r) (height r)] /\
  drawBackground r s
  = drawCover 1.0 1920 1080 (ImageSource first) 800 600.
Proof.
  cbv zeta. split; [reflexivity|]. split; [|reflexivity].
  vm_compute. discriminate.
Qed.

(** * Further properties *)

(** ** Resolution *)

(** X1. Whatever the aspect-ratio setting, the canvas resolution has
    1080 pixels on its short side, so the text is set at exactly
    [fontSize]; and the four named ratios get a resolution of that
    ratio. *)
Theorem resolution_short_side (ratio : string) (fontSize : Q) :
  let res := getResolution ratio in
  Qmin (fst res) (snd res) == 1080 /\
  adjustedFontSize fontSize (fst res) (snd res) == fontSize /\
  fst (getResolution "16:9") * 9 == snd (getResolution "16:9") * 16 /\
  fst (getResolution "9:16") * 16 == snd (getResolution "9:16") * 9 /\
  fst (getResolution "1:1") == snd (getResolution "1:1") /\
  fst (getResolution "4:3") * 3 == snd (getResolution "4:3") * 4.
Proof.
  cbv zeta.
  assert (Hmin : Qmin (fst (getResolution ratio)) (snd (getResolution ratio))
                 == 1080).
  { unfold getResolution.
    repeat match goal with
           | |- context [if ?c then _ else _] => destruct c
           end; q_eval. }
  split; [assumption|]. split.
  - unfold adjustedFontSize. cbv zeta. rewrite Hmin. field.
  - repeat split; q_eval.
Qed.

(** ** The size of the pool *)

Lemma sweep_length (M : Platform) (r : Refs) (s : VisualSettings) (bf : Q)
    (k : nat) :
  forall (pool : list Particle.t) (drawn : list CanvasOp) (n : nat),
    (length pool <= k)%nat ->
    exists ds,
      ctx (sweep M r s bf pool drawn n) = drawn ++ map DrawParticle ds /\
      (length (particlesRef (sweep M r s bf pool drawn n)) <= length pool)%nat /\
      (length ds <= length pool)%nat /\
      (length pool <= 2 * length ds)%nat.
Proof.
  induction k as [|k IH]; intros pool drawn n Hlen.
  - destruct pool; [|simpl in Hlen; lia].
    exists []. simpl. rewrite app_nil_r. auto.
  - destruct pool as [|p rest].
    { exists []. simpl. rewrite app_nil_r. auto. }
    cbn [sweep].
    destruct (Particle.update M p (width r) (height r) bf
                (nullish (particleSpeed s) 1.0) n) as [p' n'].
    destruct (removes s (width r) (height r) p').
    + destruct rest as [|q rest'].
      * exists [p']. cbn [ctx particlesRef map length]. repeat split; lia.
      * destruct (IH rest' (drawn ++ [DrawParticle p']) n')
          as (ds & E & H1 & H2 & H3); [simpl in Hlen; lia|].
        exists (p' :: ds). cbn [ctx particlesRef map length].
        rewrite E, <- app_assoc. repeat split; simpl; lia.
    + destruct (IH rest (drawn ++ [DrawParticle p']) n')
        as (ds & E & H1 & H2 & H3); [simpl in Hlen; lia|].
      exists (p' :: ds). cbn [ctx particlesRef map length].
      rewrite E, <- app_assoc. repeat split; simpl; lia.
Qed.

Lemma spawn_length (M : Platform) (r : Refs) (s : VisualSettings) (e : Engine) :
  (length (particlesRef e) <= length (particlesRef (spawn M r s e))
   <= length (particlesRef e) + 1)%nat /\
  (particleCount s <= inject_Z (Z.of_nat (length (particlesRef e))) ->
   spawn M r s e = e) /\
  (forall N : nat,
     particleCount s <= inject_Z (Z.of_nat N) ->
     (length (particlesRef e) <= N)%nat ->
     (length (particlesRef (spawn M r s e)) <= N)%nat).
Proof.
  unfold spawn. case_cmp.
  - rewrite bind_random.
    destruct (Particle.new M _ _ _ _ _ _) as [p n].
    cbn [particlesRef]. rewrite length_app. simpl.
    split; [lia|]. split; [intro; lra|].
    intros N HN Hlen.
    assert (Hlt : inject_Z (Z.of_nat (length (particlesRef e)))
                  < inject_Z (Z.of_nat N)) by lra.
    rewrite <- Zlt_Qlt in Hlt. lia.
  - split; [lia|]. split; [reflexivity|]. auto.
Qed.

Lemma animate_pool (M : Platform) (r : Refs) (st : StateRef) (e : Engine) :
  particlesRef (animate M r st e)
  = particlesRef
      (sweep M r (settings st) (beatFactor (analyserRef r) (settings st))
         (particlesRef (spawn M r (settings st) e))
         ((ctx e ++ [ClearRect (width r) (height r)])
            ++ drawBackground r (settings st))
         (rng (spawn M r (settings st) e))).
Proof.
  unfold animate, particles. cbv zeta. cbn [particlesRef].
  rewrite forEach_sweep.
  unfold spawn. cbn [particlesRef ctx rng].
  destruct (_ <? _); [|reflexivity].
  destruct ((do c <- random M; _) (rng e)) as [p n]. cbn [particlesRef ctx rng].
  reflexivity.
Qed.

Lemma animate_length (M : Platform) (r : Refs) (st : StateRef) (e : Engine) :
  (length (particlesRef (animate M r st e))
   <= length (particlesRef (spawn M r (settings st) e)))%nat.
Proof.
  rewrite animate_pool.
  destruct (sweep_length M r (settings st)
              (beatFactor (analyserRef r) (settings st)) _
              (particlesRef (spawn M r (settings st) e))
              ((ctx e ++ [ClearRect (width r) (height r)])
                 ++ drawBackground r (settings st))
              (rng (spawn M r (settings st) e)) (le_n _))
    as (ds & _ & H & _).
  exact H.
Qed.

(** X2. A frame adds at most one particle to the pool, and none once the
    pool has reached [particleCount]: a pool of at most [N] particles,
    with [particleCount <= N] in every frame, never holds more than [N]
    particles. *)
Theorem pool_bounded (M : Platform) (N : nat)
    (inputs : list (Refs * StateRef)) (e : Engine) :
  Forall (fun i => particleCount (settings (snd i)) <= inject_Z (Z.of_nat N))
         inputs ->
  (length (particlesRef e) <= N)%nat ->
  (length (particlesRef (frames M inputs e)) <= N)%nat /\
  (forall r st,
     (length (particlesRef (animate M r st e))
      <= length (particlesRef e) + 1)%nat).
Proof.
  intros Hall Hlen. split.
  - revert e Hlen. induction Hall as [|[r st] rest Hi _ IH]; intros e Hlen.
    + exact Hlen.
    + simpl. apply IH.
      pose proof (animate_length M r st e).
      destruct (spawn_length M r (settings st) e) as (_ & _ & HN).
      specialize (HN N Hi Hlen). lia.
  - intros r st.
    pose proof (animate_length M r st e).
    destruct (spawn_length M r (settings st) e) as (H1 & _). lia.
Qed.

(** The theorem at the sample pool, for one frame under the default
    count of 50. *)
Lemma pool_bounded_witness :
  (length (particlesRef (frames samplePlatform [(sampleRefs, sampleState)]
                           sampleEngine)) <= 50)%nat.
Proof.
  refine (proj1 (pool_bounded samplePlatform 50
                   [(sampleRefs, sampleState)] sampleEngine _ _)).
  - repeat constructor. simpl. q_eval.
  - simpl. lia.
Defined.

(** X3. A change of the aspect ratio gives the canvas the resolution of
    the new ratio and empties the pool; the frames that follow bring the
    particles back one per frame at most. *)
Theorem resize_repopulates (M : Platform) (ratio : string) (r : Refs)
    (e : Engine) (inputs : list (Refs * StateRef)) :
  let r' := fst (resize ratio r e) in
  let e' := snd (resize ratio r e) in
  (width r', height r') = getResolution ratio /\
  particlesRef e' = [] /\
  (length (particlesRef (frames M inputs e')) <= length inputs)%nat.
Proof.
  cbv zeta. unfold resize.
  destruct (getResolution ratio) as [w h]. cbn [fst snd width height particlesRef].
  split; [reflexivity|]. split; [reflexivity|].
  assert (H : forall inputs e0,
             (length (particlesRef (frames M inputs e0))
              <= length (particlesRef e0) + length inputs)%nat).
  { clear. intros inputs. induction inputs as [|[r st] rest IH]; intro e0.
    - simpl. lia.
    - simpl. specialize (IH (animate M r st e0)).
      pose proof (animate_length M r st e0).
      destruct (spawn_length M r (settings st) e0) as (H1 & _). lia. }
  specialize (H inputs {| particlesRef := []; ctx := ctx e; rng := rng e |}).
  simpl in H. exact H.
Qed.

(** ** The pass, particle by particle *)

Lemma sweep_no_removal (M : Platform) (r : Refs) (s : VisualSettings) (bf : Q)
    (pool : list Particle.t) :
  forall (drawn : list CanvasOp) (n : nat),
    Forall (fun q => removes s (width r) (height r) q = false)
           (fst (updateAll M r s bf pool n)) ->
    sweep M r s bf pool drawn n
    = {| particlesRef := fst (updateAll M r s bf pool n);
         ctx := drawn ++ map DrawParticle (fst (updateAll M r s bf pool n));
         rng := snd (updateAll M r s bf pool n) |}.
Proof.
  induction pool as [|p rest IH]; intros drawn n Hno.
  - simpl. now rewrite app_nil_r.
  - cbn [sweep updateAll] in *.
    destruct (Particle.update M p (width r) (height r) bf
                (nullish (particleSpeed s) 1.0) n) as [p' n'].
    destruct (updateAll M r s bf rest n') as [ps m] eqn:E.
    cbn [fst snd] in *. inversion Hno as [|? ? Hp Hrest]; subst.
    rewrite Hp. rewrite IH by (rewrite E; exact Hrest).
    rewrite E. cbn [fst snd particlesRef ctx rng map].
    rewrite <- app_assoc. reflexivity.
Qed.

(** X4. In a frame in which no particle expires or leaves the canvas,
    the pass updates and draws every particle of the pool exactly once,
    in the order of the pool, and keeps them all. *)
Theorem pass_without_removal (M : Platform) (r : Refs) (s : VisualSettings)
    (bf : Q) (e : Engine) :
  let updated := fst (updateAll M r s bf (particlesRef e) (rng e)) in
  Forall (fun q => removes s (width r) (height r) q = false) updated ->
  particlesRef (forEach (visit M r s bf) e) = updated /\
  ctx (forEach (visit M r s bf) e) = ctx e ++ map DrawParticle updated /\
  length updated = length (particlesRef e).
Proof.
  intros updated Hno. rewrite forEach_sweep.
  rewrite sweep_no_removal by exact Hno.
  cbn [particlesRef ctx]. fold updated. split; [reflexivity|].
  split; [reflexivity|].
  subst updated. clear Hno. generalize (rng e).
  induction (particlesRef e) as [|p rest IH]; intro n; [reflexivity|].
  cbn [updateAll].
  destruct (Particle.update M p _ _ _ _ n) as [p' n'].
  specialize (IH n'). destruct (updateAll M r s bf rest n') as [ps m].
  simpl in *. now rewrite IH.
Qed.

(** The theorem at the sample pool. *)
Lemma pass_without_removal_witness :
  particlesRef (forEach (visit samplePlatform sampleRefs sampleSettings 1)
                  sampleEngine)
  = fst (updateAll samplePlatform sampleRefs sampleSettings 1
           (particlesRef sampleEngine) (rng sampleEngine)).
Proof.
  refine (proj1 (pass_without_removal samplePlatform sampleRefs sampleSettings
                   1 sampleEngine _)).
  repeat constructor.
Defined.

(** X5. Whatever is removed, a pass updates and draws at least half of
    the particles of the pool and at most all of them, and never makes
    the pool longer. *)
Theorem pass_accounting (M : Platform) (r : Refs) (s : VisualSettings)
    (bf : Q) (e : Engine) :
  exists ds,
    ctx (forEach (visit M r s bf) e) = ctx e ++ map DrawParticle ds /\
    (length (particlesRef e) <= 2 * length ds)%nat /\
    (length ds <= length (particlesRef e))%nat /\
    (length (particlesRef (forEach (visit M r s bf) e))
     <= length (particlesRef e))%nat.
Proof.
  rewrite forEach_sweep.
  destruct (sweep_length M r s bf _ (particlesRef e) (ctx e) (rng e) (le_n _))
    as (ds & E & H1 & H2 & H3).
  exists ds. auto.
Qed.

(** Splitting conjunctions, and nothing else. *)
Ltac split_ands := repeat match goal with |- _ /\ _ => split end.

(** ** Cover fit *)

(** X6. For a canvas and a source of positive dimensions, [drawCover]
    draws a region of the source that lies inside the source, is
    centred in it, has the aspect ratio of the canvas and spans the
    whole width or the whole height of the source; the scrim follows. *)
Theorem drawCover_crop (brightness width height srcW srcH : Q)
    (source : MediaSource) :
  0 < width -> 0 < height -> 0 < srcW -> 0 < srcH ->
  exists sx sy sWidth sHeight,
    drawCover brightness width height source srcW srcH
    = [ DrawImage source brightness sx sy sWidth sHeight width height;
        FillRect "rgba(0,0,0,0.4)" 0 0 width height ] /\
    0 <= sx /\ 0 <= sy /\
    sx + sWidth <= srcW /\ sy + sHeight <= srcH /\
    0 < sWidth /\ 0 < sHeight /\
    sWidth * height == sHeight * width /\
    sx * 2 + sWidth == srcW /\ sy * 2 + sHeight == srcH /\
    (sWidth == srcW \/ sHeight == srcH).
Proof.
  intros Hw Hh HsW HsH. unfold drawCover. cbv zeta.
  set (T := width / height). set (R := srcW / srcH).
  assert (ET : T * height == width) by (unfold T; field; lra).
  assert (ER : R * srcH == srcW) by (unfold R; field; lra).
  assert (HT : 0 < T) by (apply Qlt_shift_div_l; lra).
  case_cmp.
  - eexists _, _, _, _. split; [reflexivity|].
    assert (Hlt : srcH * T < srcW) by nra.
    assert (Hpos : 0 < srcH * T) by nra.
    assert (Ehalf : (srcW - srcH * T) / 2 * 2 == srcW - srcH * T) by field.
    split_ands; try lra.
    rewrite <- ET. ring.
  - set (V := srcW / T).
    assert (EV : V * T == srcW) by (unfold V; field; lra).
    assert (HV : 0 < V) by (apply Qlt_shift_div_l; lra).
    assert (Hle : V <= srcH).
    { destruct (Qlt_le_dec srcH V) as [Hc|Hc]; [|exact Hc]. exfalso.
      assert (srcH * T < V * T) by nra.
      assert (R * srcH <= T * srcH) by nra. nra. }
    eexists _, _, _, _. split; [reflexivity|].
    assert (Ehalf : (srcH - V) / 2 * 2 == srcH - V) by field.
    split_ands; try lra.
    rewrite <- ET, <- EV. ring.
Qed.

(** The theorem for a 4:3 photograph on the 16:9 canvas. *)
Lemma drawCover_crop_witness :
  exists sx sy sWidth sHeight,
    drawCover 1 1920 1080 (ImageSource {| naturalWidth := 800;
                                          naturalHeight := 600 |}) 800 600
    = [ DrawImage (ImageSource {| naturalWidth := 800; naturalHeight := 600 |})
          1 sx sy sWidth sHeight 1920 1080;
        FillRect "rgba(0,0,0,0.4)" 0 0 1920 1080 ] /\
    sy + sHeight <= 600 /\ sWidth * 1080 == sHeight * 1920.
Proof.
  destruct (drawCover_crop 1 1920 1080 800 600
              (ImageSource {| naturalWidth := 800; naturalHeight := 600 |}))
    as (sx & sy & sw & sh & E & _ & _ & _ & H1 & _ & _ & H2 & _);
    try q_eval.
  exists sx, sy, sw, sh. auto.
Defined.

(** ** New particles *)

Lemma floor_of_three (q : Q) : 0 <= q -> q < 1 -> (0 <= Qfloor (q * 3) < 3)%Z.
Proof.
  intros H0 H1. split.
  - change 0%Z with (Qfloor 0). apply Qfloor_resp_le. lra.
  - pose proof (Qfloor_le (q * 3)) as Hf.
    assert (Hlt : inject_Z (Qfloor (q * 3)) < inject_Z 3).
    { change (inject_Z 3) with 3. lra. }
    now rewrite <- Zlt_Qlt in Hlt.
Qed.

(** The random numbers a constructor call may draw, as facts. *)
Ltac random_facts M Hrand n :=
  pose proof (Hrand n); pose proof (Hrand (S n));
  pose proof (Hrand (S (S n))); pose proof (Hrand (S (S (S n))));
  pose proof (Hrand (S (S (S (S n)))));
  pose proof (Hrand (S (S (S (S (S n))))));
  pose proof (Hrand (S (S (S (S (S (S n)))))));
  pose proof (Hrand (S (S (S (S (S (S (S n))))))));
  pose proof (Hrand (S (S (S (S (S (S (S (S n)))))))));
  pose proof (Hrand (S (S (S (S (S (S (S (S (S n)))))))))).

(** X7. With [Math.random()] in [[0,1)], a new particle of any style
    starts inside the canvas with age 0, a maximal age from 100 up to
    400, one of the three variants, the style and colour it was given,
    and a positive size of at most 20 times the size multiplier. *)
Theorem new_particle_ranges (M : Platform) (w h : Q) (c : string)
    (st : ParticleStyle) (sm : Q) (n : nat) :
  unit_random M -> 0 < w -> 0 < h -> 0 < sm ->
  let p := fst (Particle.new M w h c st sm n) in
  (0 <= Particle.x p /\ Particle.x p < w) /\
  (0 <= Particle.y p /\ Particle.y p < h) /\
  Particle.life p = 0 /\
  (100 <= Particle.maxLife p /\ Particle.maxLife p < 400) /\
  (0 <= Particle.type p < 3)%Z /\
  Particle.style p = st /\
  Particle.color p = c /\
  (0 < Particle.size p /\ Particle.size p <= 20 * sm).
Proof.
  intros Hrand Hw Hh Hsm. random_facts M Hrand n.
  pose proof (floor_of_three (Math_random M (S (S (S (S (S n))))))) as Hty.
  unfold Particle.new, bind, ret, random.
  destruct st; cbn -[Qfloor Qmult Qplus Qminus Qopp];
    split_ands; try reflexivity; try (apply Hty; tauto); try nra;
    destruct (Z.eqb _ _); nra.
Qed.

Lemma sample_unit_random : unit_random samplePlatform.
Proof.
  intro k. split; [apply sample_random_nonneg|].
  simpl. apply Qlt_shift_div_r; [reflexivity|].
  change (1 * 10) with (inject_Z 10). rewrite <- Zlt_Qlt.
  pose proof (Nat.mod_upper_bound k 10). lia.
Qed.

(** The theorem for an OCEAN particle on the 16:9 canvas. *)
Lemma new_particle_ranges_witness :
  Particle.life (fst (Particle.new samplePlatform 1920 1080 "#fbbf24" OCEAN
                        1 0%nat)) = 0.
Proof.
  assert (H1920 : 0 < 1920) by reflexivity.
  assert (H1080 : 0 < 1080) by reflexivity.
  assert (H1 : 0 < 1) by reflexivity.
  exact (proj1 (proj2 (proj2 (new_particle_ranges samplePlatform 1920 1080
                  "#fbbf24" OCEAN 1 0%nat sample_unit_random
                  H1920 H1080 H1)))).
Defined.

(** X8. The ranges of a new particle by style, with [Math.random()] in
    [[0,1)] and a positive size multiplier [sm]: OCEAN and MUSICAL
    particles rise ([vy <= -0.2]), SNOW particles fall ([vy >= 1]), the
    others drift either way; COSMOS particles live from 200 to 400
    frames, the others from 100 to 200; sizes are [sm] times a range
    that depends on the style, and for COSMOS on the variant. *)
Theorem new_particle_by_style (M : Platform) (w h : Q) (c : string)
    (st : ParticleStyle) (sm : Q) (n : nat) :
  unit_random M -> 0 < sm ->
  let p := fst (Particle.new M w h c st sm n) in
  let vx := Particle.vx p in
  let vy := Particle.vy p in
  let size := Particle.size p in
  let maxLife := Particle.maxLife p in
  let rot := Particle.rotationSpeed p in
  match st with
  | OCEAN =>
      (-0.25 <= vx /\ vx < 0.25) /\ (-1.7 < vy /\ vy <= -0.2) /\
      (2 * sm <= size /\ size < 6 * sm) /\
      (100 <= maxLife /\ maxLife < 200) /\ (-0.025 <= rot /\ rot < 0.025)
  | COSMOS =>
      (-0.1 <= vx /\ vx < 0.1) /\ (-0.1 <= vy /\ vy < 0.1) /\
      (Particle.type p = 0%Z -> 0.5 * sm <= size /\ size < 2 * sm) /\
      (Particle.type p <> 0%Z -> 2 * sm <= size /\ size < 6 * sm) /\
      (200 <= maxLife /\ maxLife < 400) /\ (-0.025 <= rot /\ rot < 0.025)
  | GEOMETRIC =>
      (-1 <= vx /\ vx < 1) /\ (-1 <= vy /\ vy < 1) /\
      (4 * sm <= size /\ size < 10 * sm) /\
      (100 <= maxLife /\ maxLife < 200) /\ (-0.05 <= rot /\ rot < 0.05)
  | MUSICAL =>
      (-0.5 <= vx /\ vx < 0.5) /\ (-1.2 < vy /\ vy <= -0.2) /\
      (10 * sm <= size /\ size < 20 * sm) /\
      (100 <= maxLife /\ maxLife < 200) /\ (-0.01 <= rot /\ rot < 0.01)
  | SNOW =>
      (-0.25 <= vx /\ vx < 0.25) /\ (1 <= vy /\ vy < 3) /\
      (sm <= size /\ size < 4 * sm) /\
      (100 <= maxLife /\ maxLife < 200) /\ (-0.025 <= rot /\ rot < 0.025)
  | STANDARD =>
      (-0.5 <= vx /\ vx < 0.5) /\ (-0.5 <= vy /\ vy < 0.5) /\
      (sm <= size /\ size < 4 * sm) /\
      (100 <= maxLife /\ maxLife < 200) /\ (-0.025 <= rot /\ rot < 0.025)
  end.
Proof.
  intros Hrand Hsm. random_facts M Hrand n.
  unfold Particle.new, bind, ret, random.
  destruct st; cbn -[Qfloor Qmult Qplus Qminus Qopp];
    split_ands; try nra.
  - intro Hty. rewrite Hty. simpl. nra.
  - intro Hty. apply Z.eqb_neq in Hty. rewrite Hty. nra.
Qed.

(** The theorem for a SNOW particle. *)
Lemma new_particle_by_style_witness :
  1 <= Particle.vy (fst (Particle.new samplePlatform 1920 1080 "#fbbf24" SNOW
                           1 0%nat)).
Proof.
  assert (H1 : 0 < 1) by reflexivity.
  exact (proj1 (proj1 (proj2 (new_particle_by_style samplePlatform 1920 1080
                  "#fbbf24" SNOW 1 0%nat sample_unit_random H1)))).
Defined.

(** ** What an update changes *)

(** X9. An update changes the position, the angle and the age of a
    particle, and at most the sign of its velocity components: size,
    colour, maximal age, style, rotation speed and variant stay, the
    speed along each axis stays, and the particles of the wraparound
    styles keep their velocity altogether. *)
Theorem update_preserves (M : Platform) (p : Particle.t)
    (w h bf sf : Q) (n : nat) :
  let p' := fst (Particle.update M p w h bf sf n) in
  Particle.size p' = Particle.size p /\
  Particle.color p' = Particle.color p /\
  Particle.maxLife p' = Particle.maxLife p /\
  Particle.style p' = Particle.style p /\
  Particle.rotationSpeed p' = Particle.rotationSpeed p /\
  Particle.type p' = Particle.type p /\
  Qabs (Particle.vx p') == Qabs (Particle.vx p) /\
  Qabs (Particle.vy p') == Qabs (Particle.vy p) /\
  (wraparound (Particle.style p) = true ->
   Particle.vx p' = Particle.vx p /\ Particle.vy p' = Particle.vy p).
Proof.
  destruct p as [x y vx vy size color life maxLife style angle rot type].
  assert (Hneg : forall v : Q, Qabs (v * -1) == Qabs v).
  { intro v. assert (E : v * -1 == - v) by ring. rewrite E. apply Qabs_opp. }
  unfold Particle.update, Particle.advance, Particle.boundary,
    bind, ret, random.
  destruct style; cbn -[Qmult Qplus Qabs];
    repeat match goal with
           | |- context [if ?c then _ else _] =>
               destruct c; cbn -[Qmult Qplus Qabs]
           end;
    split_ands; try reflexivity; try apply Hneg;
    try (intro; discriminate); try (intro; split; reflexivity).
Qed.

Lemma boundary_y (M : Platform) (a : Particle.t) (w h : Q) (n : nat) :
  -100 <= h ->
  let p' := fst (Particle.boundary M a w h n) in
  (Particle.style a = OCEAN \/ Particle.style a = MUSICAL ->
   -50 <= Particle.y p') /\
  (Particle.style a = SNOW -> Particle.y p' <= h + 50).
Proof.
  intro Hh.
  destruct a as [x y vx vy size color life maxLife style angle rot type].
  unfold Particle.boundary, bind, ret, random.
  cbn [Particle.style Particle.x Particle.y]. split.
  - intros [-> | ->]; case_cmp; simpl; lra.
  - intros ->. case_cmp; simpl; lra.
Qed.

(** X10. After an update, a rising particle (OCEAN, MUSICAL) is never
    more than 50 units above the canvas and a SNOW particle never more
    than 50 units below it; so the removal test never finds the former
    beyond the top margin of 100 or the latter beyond the bottom one. *)
Theorem wraparound_keeps_inside (M : Platform) (p : Particle.t)
    (w h bf sf : Q) (n : nat) :
  -100 <= h ->
  let p' := fst (Particle.update M p w h bf sf n) in
  (Particle.style p = OCEAN \/ Particle.style p = MUSICAL ->
   -50 <= Particle.y p' /\ ~ Particle.y p' < -100) /\
  (Particle.style p = SNOW ->
   Particle.y p' <= h + 50 /\ ~ h + 100 < Particle.y p').
Proof.
  intros Hh p'. subst p'. unfold Particle.update.
  destruct (advance_fields M p bf sf) as (_ & _ & _ & _ & _ & Hsa).
  destruct (boundary_y M (Particle.advance M p bf sf) w h n Hh) as [Hup Hdown].
  rewrite Hsa in Hup, Hdown. split; intro Hst.
  - specialize (Hup Hst). lra.
  - specialize (Hdown Hst). lra.
Qed.

(** The theorem for the MUSICAL particle that leaves the top margin. *)
Lemma wraparound_keeps_inside_witness :
  -50 <= Particle.y (fst (Particle.update samplePlatform sampleRising
                            1920 1080 1 1 0%nat)).
Proof.
  assert (Hh : -100 <= 1080) by q_eval.
  exact (proj1 (proj1 (wraparound_keeps_inside samplePlatform sampleRising
                         1920 1080 1 1 0%nat Hh) (or_intror eq_refl))).
Defined.

(** ** Lyric lines in a frame *)

Lemma lyricCall_cases (td t : Q) (line : LyricLine) (ph : Phase) (pr : Q) :
  lyricCall td t line = Some (ph, pr) ->
  (ph = enter /\ startTime line <= t /\ t < endTime line /\
   t - startTime line < td /\ pr = (t - startTime line) / td) \/
  (ph = active /\ startTime line <= t /\ t < endTime line /\
   td <= t - startTime line /\ pr = 1) \/
  (ph = exit /\ endTime line <= t /\ t < endTime line + td /\
   pr = (t - endTime line) / td).
Proof.
  unfold lyricCall. cbv zeta.
  repeat case_cmp; cbn [andb]; intro H; try discriminate;
    injection H as <- <-;
    first [ left; split_ands; first [reflexivity | lra]
          | right; left; split_ands; first [reflexivity | lra]
          | right; right; split_ands; first [reflexivity | lra] ].
Qed.

(** X11. With a positive transition duration, the progress handed to
    [drawLine] is at least 0 and at most 1, and below 1 in the enter and
    exit phases. *)
Theorem progress_range (td t : Q) (line : LyricLine) (ph : Phase) (pr : Q) :
  0 < td ->
  lyricCall td t line = Some (ph, pr) ->
  0 <= pr /\ pr <= 1 /\ (ph <> active -> pr < 1).
Proof.
  intros Htd Hcall.
  destruct (lyricCall_cases td t line ph pr Hcall)
    as [(-> & H1 & H2 & H3 & ->) | [(-> & H1 & H2 & H3 & ->)
                                    | (-> & H1 & H2 & ->)]].
  - assert (0 <= (t - startTime line) / td)
      by (apply Qle_shift_div_l; lra).
    assert ((t - startTime line) / td < 1)
      by (apply Qlt_shift_div_r; lra).
    split_ands; try lra; intros _; assumption.
  - split_ands; try lra; intro H; now contradiction H.
  - assert (0 <= (t - endTime line) / td)
      by (apply Qle_shift_div_l; lra).
    assert ((t - endTime line) / td < 1)
      by (apply Qlt_shift_div_r; lra).
    split_ands; try lra; intros _; assumption.
Qed.

(** The theorem at the sample line, a quarter of a second in. *)
Lemma progress_range_witness :
  0 <= (10.25 - startTime sampleLine) / 0.5 /\
  (10.25 - startTime sampleLine) / 0.5 <= 1.
Proof.
  assert (Htd : 0 < 0.5) by reflexivity.
  assert (Hcall : lyricCall 0.5 10.25 sampleLine
                  = Some (enter, (10.25 - startTime sampleLine) / 0.5))
    by reflexivity.
  pose proof (progress_range 0.5 10.25 sampleLine enter _ Htd Hcall) as H.
  exact (conj (proj1 H) (proj1 (proj2 H))).
Defined.

(** X12. Two lines of which the first ends before the second starts
    (and the second does not end before it starts) are drawn in the same
    frame only while the first is in its exit phase, and so only when
    the second starts less than a transition after the end of the
    first. *)
Theorem cross_fade_only (td t : Q) (a b : LyricLine) (pa pb : Phase)
    (qa qb : Q) :
  endTime a <= startTime b ->
  startTime b <= endTime b ->
  lyricCall td t a = Some (pa, qa) ->
  lyricCall td t b = Some (pb, qb) ->
  pa = exit /\ startTime b <= t /\ t < endTime a + td.
Proof.
  intros Hab Hb0 Ha Hb.
  destruct (lyricCall_cases td t a pa qa Ha)
    as [(-> & A1 & A2 & _) | [(-> & A1 & A2 & _) | (-> & A1 & A2 & _)]];
  destruct (lyricCall_cases td t b pb qb Hb)
    as [(-> & B1 & B2 & _) | [(-> & B1 & B2 & _) | (-> & B1 & B2 & _)]];
    try lra; split_ands; first [reflexivity | lra].
Qed.

(** The theorem for two sample lines that meet at 14, a tenth of a
    second after. *)
Lemma cross_fade_only_witness :
  startTime {| id := "2"; startTime := 14; endTime := 18; text := "next";
               translation := None |} <= 14.1 /\
  14.1 < endTime sampleLine + 0.5.
Proof.
  assert (H1 : endTime sampleLine
               <= startTime {| id := "2"; startTime := 14; endTime := 18;
                               text := "next"; translation := None |})
    by q_eval.
  assert (H2 : startTime {| id := "2"; startTime := 14; endTime := 18;
                            text := "next"; translation := None |}
               <= endTime {| id := "2"; startTime := 14; endTime := 18;
                             text := "next"; translation := None |})
    by q_eval.
  exact (proj2 (cross_fade_only 0.5 14.1 sampleLine
                  {| id := "2"; startTime := 14; endTime := 18;
                     text := "next"; translation := None |}
                  exit enter _ _ H1 H2 eq_refl eq_refl)).
Defined.

Lemma lyricCall_visible (td t : Q) (line : LyricLine) :
  0 <= td -> startTime line <= endTime line ->
  match lyricCall td t line with Some _ => true | None => false end
  = visible td t line.
Proof.
  intros Htd Hline. unfold lyricCall, visible. cbv zeta.
  repeat case_cmp; simpl; try reflexivity; exfalso; lra.
Qed.

(** X13. With a transition duration that is not negative and lines that
    do not end before they start, the lines a frame draws are exactly
    the lines whose window, from the start of the line to one transition
    after its end, holds the current time: each once and in the order of
    the sequence.  The frame neither sorts them nor skips one. *)
Theorem lyricLines_in_order (st : StateRef) :
  0 <= transitionDuration (settings st) ->
  Forall (fun line => startTime line <= endTime line) (lyrics st) ->
  drawnLines (lyricLines st)
  = List.filter
      (visible (num_or (transitionDuration (settings st)) 0.5) (currentTime st))
      (lyrics st) /\
  length (lyricLines st) = length (drawnLines (lyricLines st)).
Proof.
  intros Hs Hlines.
  assert (Htd : 0 <= num_or (transitionDuration (settings st)) 0.5).
  { apply Qlt_le_weak. apply num_or_pos; [assumption | reflexivity]. }
  unfold lyricLines, drawnLines. cbv zeta.
  induction Hlines as [|line rest Hline Hrest [IH1 IH2]];
    [split; reflexivity|].
  simpl.
  rewrite <- (lyricCall_visible _ (currentTime st) line Htd Hline).
  destruct (lyricCall _ _ line) as [[ph pr]|]; simpl.
  - split; f_equal; assumption.
  - split; assumption.
Qed.

(** The theorem for the sample state, a quarter of a second into its
    only line. *)
Lemma lyricLines_in_order_witness :
  drawnLines (lyricLines sampleState) = [sampleLine].
Proof.
  assert (Hs : 0 <= transitionDuration (settings sampleState)) by q_eval.
  assert (Hl : Forall (fun line => startTime line <= endTime line)
                      (lyrics sampleState)).
  { repeat constructor. q_eval. }
  exact (proj1 (lyricLines_in_order sampleState Hs Hl)).
Defined.

(** ** Easing, in numbers *)

Lemma cube_unit (u : Q) :
  0 <= u -> u <= 1 -> 0 <= u * u * u /\ u * u * u <= 1.
Proof.
  intros H0 H1.
  assert (0 <= u * u) by nra. assert (u * u <= 1) by nra.
  set (v := u * u) in *. split; nra.
Qed.

Lemma cube_monotone (u v : Q) :
  0 <= u -> u <= v -> u * u * u <= v * v * v.
Proof.
  intros H0 H1.
  assert (0 <= u * u) by nra.
  assert (u * u <= v * v) by nra.
  assert (u * u * u <= v * v * u) by nra.
  assert (v * v * u <= v * v * v) by nra.
  lra.
Qed.

Lemma square_nonneg (z : Q) : 0 <= z * z.
Proof.
  destruct (Qlt_le_dec z 0) as [H|H].
  - assert (E : z * z == (- z) * (- z)) by ring. rewrite E.
    apply Qmult_le_0_compat; lra.
  - apply Qmult_le_0_compat; assumption.
Qed.

Lemma easeOutCubic_unit (x : Q) :
  0 <= x -> x <= 1 -> 0 <= easeOutCubic x /\ easeOutCubic x <= 1.
Proof.
  intros H0 H1. unfold easeOutCubic. simpl.
  destruct (cube_unit (1 - x)); lra.
Qed.

(** X14. [easeOutCubic] maps 0 to 0 and 1 to 1, does not decrease on
    [[0,1]] and stays within [[0,1]] there. *)
Theorem easeOutCubic_range :
  easeOutCubic 0 == 0 /\ easeOutCubic 1 == 1 /\
  (forall x, 0 <= x -> x <= 1 ->
             0 <= easeOutCubic x /\ easeOutCubic x <= 1) /\
  (forall x y, 0 <= x -> x <= y -> y <= 1 ->
               easeOutCubic x <= easeOutCubic y).
Proof.
  split; [q_eval|]. split; [q_eval|]. split.
  - apply easeOutCubic_unit.
  - intros x y H0 Hxy H1. unfold easeOutCubic. simpl.
    pose proof (cube_monotone (1 - y) (1 - x)). lra.
Qed.

(** The theorem at the middle of the transition. *)
Lemma easeOutCubic_range_witness :
  0 <= easeOutCubic 0.5 /\ easeOutCubic 0.5 <= 1.
Proof.
  apply (proj1 (proj2 (proj2 easeOutCubic_range))); q_eval.
Defined.

Lemma easeOutBack_bounds (x : Q) :
  0 <= x -> x <= 1 -> 0 <= easeOutBack x /\ easeOutBack x <= 1.1001.
Proof.
  intros H0 H1.
  set (u := 1 - x).
  assert (Hu0 : 0 <= u) by (unfold u; lra).
  assert (Hu1 : u <= 1) by (unfold u; lra).
  split.
  - (* 1 - c3 u^3 + c1 u^2 = (1 - u) (1 + u + c3 u^2) *)
    assert (E : easeOutBack x
                == (1 - u) * (1 + u + (1.70158 + 1) * (u * u)))
      by (unfold easeOutBack, u; simpl; ring).
    rewrite E. apply Qmult_le_0_compat; [lra|].
    assert (0 <= u * u) by nra. lra.
  - (* c3 u^3 - c1 u^2 = c3 (u - a)^2 (u + a/2) - c3 a^3 / 2,
       with a = 2 c1 / (3 c3) *)
    set (a := 2 * 1.70158 / (3 * (1.70158 + 1))).
    assert (E : easeOutBack x
                == 1 + (1.70158 + 1) * (a * a * a) / 2
                   - (1.70158 + 1) * ((u - a) * (u - a) * (u + a / 2))).
    { unfold easeOutBack, u, a. simpl. field. }
    rewrite E.
    assert (Ha : 0 <= a) by (unfold a; q_eval).
    assert (Hc : (1.70158 + 1) * (a * a * a) / 2 <= 0.1001)
      by (unfold a; q_eval).
    clearbody a. clear E.
    assert (Hsq : 0 <= (u - a) * (u - a)) by apply square_nonneg.
    assert (Ehalf : a / 2 * 2 == a) by field.
    assert (Hprod : 0 <= (u - a) * (u - a) * (u + a / 2))
      by (apply Qmult_le_0_compat; lra).
    set (v := (u - a) * (u - a) * (u + a / 2)) in *.
    set (k := (1.70158 + 1) * (a * a * a) / 2) in *.
    lra.
Qed.

(** X15. [easeOutBack] maps 0 to 0 and 1 to 1; on [[0,1]] it is never
    negative and overshoots 1 by 10 percent at most, up to a hundredth
    of a percent, an overshoot that it reaches. *)
Theorem easeOutBack_range :
  easeOutBack 0 == 0 /\ easeOutBack 1 == 1 /\
  (forall x, 0 <= x -> x <= 1 ->
             0 <= easeOutBack x /\ easeOutBack x <= 1.1001) /\
  (exists x, 0 <= x /\ x <= 1 /\ 1.1 < easeOutBack x).
Proof.
  split; [q_eval|]. split; [q_eval|]. split.
  - apply easeOutBack_bounds.
  - exists 0.58. split; [q_eval|]. split; q_eval.
Qed.

(** The theorem at the point of the largest overshoot, about 0.58. *)
Lemma easeOutBack_range_witness :
  0 <= easeOutBack 0.58 /\ easeOutBack 0.58 <= 1.1001.
Proof.
  apply (proj1 (proj2 (proj2 easeOutBack_range))); q_eval.
Defined.

(** ** The pose of a line that enters *)

Lemma clamp_unit (a : Q) : 0 <= a -> a <= 1 -> Qmax 0 (Qmin 1 a) == a.
Proof. intros H0 H1. now apply clamp_cases. Qed.

(** X16. Over the enter phase (progress from 0 to 1), whatever the
    animation type: the opacity stays within [[0,1]], so that clamping
    it changes nothing; the scale stays between 0.5 and 1.06; the line
    is offset downwards by 1.5 times the font size at most; the blur is
    4 pixels at most.  At progress 1 the line is in its resting pose:
    opaque, at scale 1, not offset and not blurred.  The five types
    FADE, SLIDE_UP, ZOOM, BOUNCE and WAVE start transparent. *)
Theorem enter_pose (M : Platform) (animType : AnimationType)
    (animationSpeed fontSize currentTime progress : Q) :
  0 <= progress -> progress <= 1 -> 0 <= fontSize ->
  let pose := lineStyle M animType animationSpeed fontSize currentTime enter in
  ((0 <= alpha (pose progress) /\ alpha (pose progress) <= 1) /\
   globalAlpha (pose progress) == alpha (pose progress) /\
   (0.5 <= scale (pose progress) /\ scale (pose progress) <= 1.06) /\
   (0 <= yOffset (pose progress) /\ yOffset (pose progress) <= fontSize * 1.5) /\
   (0 <= blurAmount (pose progress) /\ blurAmount (pose progress) <= 4)) /\
  (alpha (pose 1) == 1 /\ scale (pose 1) == 1 /\ yOffset (pose 1) == 0 /\
   blurAmount (pose 1) == 0 /\ blurFilter (pose 1) = None) /\
  (animType = FADE \/ animType = SLIDE_UP \/ animType = ZOOM \/
   animType = BOUNCE \/ animType = WAVE -> alpha (pose 0) == 0).
Proof.
  intros H0 H1 Hf pose. subst pose.
  destruct (easeOutCubic_unit progress H0 H1) as [Hc0 Hc1].
  destruct (easeOutBack_bounds progress H0 H1) as [Hb0 Hb1].
  assert (Hmin : 0 <= Qmin 1 (progress * 3) /\ Qmin 1 (progress * 3) <= 1).
  { destruct (Q.min_spec 1 (progress * 3)) as [[? E]|[? E]]; rewrite E; lra. }
  assert (Halpha : forall st : LineStyle,
             0 <= alpha st /\ alpha st <= 1 -> globalAlpha st == alpha st).
  { intros st [? ?]. now apply clamp_unit. }
  split; [|split].
  - assert (Hrange : 0 <= alpha (lineStyle M animType animationSpeed fontSize
                                   currentTime enter progress)
                     /\ alpha (lineStyle M animType animationSpeed fontSize
                                 currentTime enter progress) <= 1).
    { destruct animType; cbn -[easeOutCubic easeOutBack Qmin]; lra. }
    split; [exact Hrange|]. split; [now apply Halpha|].
    set (t := easeOutCubic progress) in *.
    set (b := easeOutBack progress) in *.
    destruct animType; cbn -[easeOutCubic easeOutBack Qmin];
      fold t; fold b; split_ands; try lra; nra.
  - destruct animType; split_ands;
      first [ q_eval | cbn; unfold easeOutCubic; simpl; ring ].
  - intros [-> | [-> | [-> | [-> | ->]]]]; q_eval.
Qed.

(** The theorem for SLIDE_UP at the middle of the transition. *)
Lemma enter_pose_witness :
  globalAlpha (lineStyle samplePlatform SLIDE_UP 1 60 10.25 enter 0.5)
  == alpha (lineStyle samplePlatform SLIDE_UP 1 60 10.25 enter 0.5).
Proof.
  assert (H0 : 0 <= 0.5) by q_eval.
  assert (H1 : 0.5 <= 1) by q_eval.
  assert (Hf : 0 <= 60) by q_eval.
  exact (proj1 (proj2 (proj1 (enter_pose samplePlatform SLIDE_UP 1 60 10.25
                                0.5 H0 H1 Hf)))).
Defined.

(** ** Typewriter *)

(** X17. During the enter phase (progress from 0 up to, not reaching,
    1) the typewriter draws a proper prefix of the sub-line, of
    [floor(length * progress)] UTF-16 code units, and draws nothing
    while that number is 0: the complete sub-line is never shown before
    the active phase. *)
Theorem typewriter_prefix (txt : list CodeUnit) (progress : Q) :
  0 <= progress -> progress < 1 ->
  let visibleLen := Qfloor (inject_Z (Z.of_nat (length txt)) * progress) in
  match typewriter txt progress with
  | Some visibleText =>
      visibleText `prefix_of` txt /\
      Z.of_nat (length visibleText) = visibleLen /\
      (0 < length visibleText < length txt)%nat
  | None => visibleLen = 0%Z
  end.
Proof.
  intros H0 H1. cbv zeta. unfold typewriter, substring0. cbv zeta.
  set (len := length txt).
  set (v := Qfloor (inject_Z (Z.of_nat len) * progress)).
  assert (Hlen : 0 <= inject_Z (Z.of_nat len)).
  { change 0 with (inject_Z 0). rewrite <- Zle_Qle. lia. }
  assert (Hv0 : (0 <= v)%Z).
  { change 0%Z with (Qfloor 0). apply Qfloor_resp_le.
    apply Qmult_le_0_compat; assumption. }
  assert (Hv1 : (v <= Z.of_nat len)%Z).
  { rewrite <- (Qfloor_Z (Z.of_nat len)). apply Qfloor_resp_le. nra. }
  assert (Hv2 : (0 < len)%nat -> (v < Z.of_nat len)%Z).
  { intro Hpos.
    assert (Hq : inject_Z (Z.of_nat len) * progress < inject_Z (Z.of_nat len)).
    { assert (0 < inject_Z (Z.of_nat len)).
      { change 0 with (inject_Z 0). rewrite <- Zlt_Qlt. lia. }
      nra. }
    pose proof (Qfloor_le (inject_Z (Z.of_nat len) * progress)) as Hf.
    fold v in Hf. rewrite Zlt_Qlt. lra. }
  rewrite length_take. fold len.
  destruct (Nat.ltb_spec 0 (Nat.min (Z.to_nat v) len)) as [Hpos|Hzero].
  - split; [apply prefix_take|].
    rewrite length_take. fold len.
    assert (0 < len)%nat by lia. specialize (Hv2 H). lia.
  - lia.
Qed.

(** The theorem for a sub-line of two Chinese characters, each one code
    unit, at 50 percent: the first of them is drawn. *)
Lemma typewriter_prefix_witness :
  match typewriter [27489; 36814]%N 0.5 with
  | Some visibleText =>
      visibleText `prefix_of` [27489; 36814]%N /\
      Z.of_nat (length visibleText) = Qfloor (inject_Z 2 * 0.5) /\
      (0 < length visibleText < 2)%nat
  | None => Qfloor (inject_Z 2 * 0.5) = 0%Z
  end.
Proof.
  assert (H0 : 0 <= 0.5) by q_eval.
  assert (H1 : 0.5 < 1) by q_eval.
  exact (typewriter_prefix [27489; 36814]%N 0.5 H0 H1).
Defined.

(** ** Kinetic: the order of the pops *)

Lemma kineticStartP_monotone (count i j : nat) :
  (i <= j)%nat -> kineticStartP count i <= kineticStartP count j.
Proof.
  intro Hij. unfold kineticStartP.
  assert (Hc : 0 <= / inject_Z (Z.of_nat count)).
  { apply Qinv_le_0_compat. change 0 with (inject_Z 0).
    rewrite <- Zle_Qle. lia. }
  assert (Hi : inject_Z (Z.of_nat i) <= inject_Z (Z.of_nat j))
    by (rewrite <- Zle_Qle; lia).
  unfold Qdiv.
  set (c := / inject_Z (Z.of_nat count)) in *.
  set (a := inject_Z (Z.of_nat i)) in *.
  set (b := inject_Z (Z.of_nat j)) in *.
  nra.
Qed.

Lemma kineticClampedP_raw (count idx : nat) (progress : Q) :
  kineticClampedP count idx progress
  == Qmax 0 (Qmin 1 ((progress - kineticStartP count idx) / 0.3)).
Proof.
  unfold kineticClampedP. cbv zeta.
  now rewrite kinetic_raw_progress.
Qed.

(** X18. The characters of a sub-line pop in from left to right: a
    character is never further in its pop than one before it, and when
    a character is drawn all the characters before it are drawn. *)
Theorem kinetic_cascade (count i j : nat) (progress : Q) (ci cj : ascii) :
  (i <= j)%nat -> (j < count)%nat ->
  kineticClampedP count j progress <= kineticClampedP count i progress /\
  (kineticChar count progress j cj <> None ->
   kineticChar count progress i ci <> None).
Proof.
  intros Hij _.
  pose proof (kineticStartP_monotone count i j Hij) as Hs.
  assert (Hle : kineticClampedP count j progress
                <= kineticClampedP count i progress).
  { rewrite !kineticClampedP_raw.
    apply Q.max_le_compat_l, Q.min_le_compat_l.
    apply Qmult_le_compat_r; [lra | q_eval]. }
  split; [exact Hle|].
  unfold kineticChar. cbv zeta.
  destruct (Qgt_bool_spec (kineticClampedP count j progress) 0);
    destruct (Qgt_bool_spec (kineticClampedP count i progress) 0);
    intro H; first [discriminate | now contradiction H | lra].
Qed.

(** The theorem for the first and the third of five characters. *)
Lemma kinetic_cascade_witness :
  kineticClampedP 5 2 0.5 <= kineticClampedP 5 0 0.5.
Proof.
  assert (H : (0 <= 2)%nat) by lia.
  assert (H' : (2 < 5)%nat) by lia.
  exact (proj1 (kinetic_cascade 5 0 2 0.5 "h" "l" H H')).
Defined.

(** X19. A character in the last eighth of a sub-line (index [idx] of
    [count] with [idx/count > 7/8]) never completes its pop while the
    line enters: its window ends after progress 1, so its clamped
    progress stays below 1 at every progress below 1. *)
Theorem kinetic_tail_cut (count idx : nat) (progress : Q) :
  (idx < count)%nat -> (7 * count < 8 * idx)%nat -> progress < 1 ->
  1 < kineticEndP count idx /\ kineticClampedP count idx progress < 1.
Proof.
  intros Hidx Htail Hp.
  assert (Hend : 1 < kineticEndP count idx).
  { unfold kineticEndP, kineticStartP.
    assert (Hq : 0.875 < inject_Z (Z.of_nat idx) / inject_Z (Z.of_nat count)).
    { apply Qlt_shift_div_l.
      - change 0 with (inject_Z 0). rewrite <- Zlt_Qlt. lia.
      - assert (E : 0.875 * inject_Z (Z.of_nat count)
                    == inject_Z (7 * Z.of_nat count) / 8)
          by (rewrite inject_Z_mult; field).
        rewrite E. apply Qlt_shift_div_r; [reflexivity|].
        change 8 with (inject_Z 8).
        rewrite <- inject_Z_mult, <- Zlt_Qlt. lia. }
    set (q := inject_Z (Z.of_nat idx) / inject_Z (Z.of_nat count)) in *.
    clearbody q. lra. }
  split; [exact Hend|].
  destruct (kineticClampedP_cases count idx progress) as (H0 & H01 & _).
  cbv zeta in H0, H01.
  destruct (Qlt_le_dec (kineticStartP count idx) progress) as [Hs|Hs].
  - rewrite H01 by lra.
    apply Qlt_shift_div_r; [reflexivity|].
    unfold kineticEndP in Hend. lra.
  - rewrite H0 by assumption. reflexivity.
Qed.

(** The theorem for the last of ten characters, just before the end of
    the enter phase. *)
Lemma kinetic_tail_cut_witness : kineticClampedP 10 9 0.99 < 1.
Proof.
  assert (Hi : (9 < 10)%nat) by lia.
  assert (H : (7 * 10 < 8 * 9)%nat) by lia.
  assert (Hp : 0.99 < 1) by q_eval.
  exact (proj2 (kinetic_tail_cut 10 9 0.99 Hi H Hp)).
Defined.

(** ** Audio: the beat factor from above, and the bars *)

Lemma sum_at_most (c : Q) (l : list Q) :
  Forall (fun v => v <= c) l ->
  fold_right Qplus 0 l <= inject_Z (Z.of_nat (length l)) * c.
Proof.
  induction 1 as [|v l Hv _ IH].
  - cbn [fold_right length]. change (inject_Z (Z.of_nat 0)) with 0.
    rewrite Qmult_0_l. apply Qle_refl.
  - cbn [fold_right length]. rewrite Nat2Z.inj_succ.
    unfold Z.succ. rewrite inject_Z_plus.
    change (inject_Z 1) with 1.
    set (k := inject_Z (Z.of_nat (length l))) in *.
    assert (E : (k + 1) * c == k * c + c) by ring.
    rewrite E. lra.
Qed.

Lemma averageOfFirst20_at_most (a : AnalyserNode) :
  (forall i, (0 <= byteFrequencyData a i <= 255)%Z) ->
  averageOfFirst20 a <= 255.
Proof.
  intro Hb. unfold averageOfFirst20.
  apply Qle_shift_div_r; [reflexivity|].
  pose proof (sum_at_most 255
    (map (fun i => inject_Z (byteFrequencyData a i)) (seq 0 20))) as H.
  rewrite length_map, length_seq in H.
  change (inject_Z (Z.of_nat 20)) with 20 in H.
  assert (E : 255 * 20 == 20 * 255) by ring. rewrite E. apply H.
  apply List.Forall_forall. intros v Hv.
  apply in_map_iff in Hv. destruct Hv as (i & <- & _).
  change 255 with (inject_Z 255). rewrite <- Zle_Qle. apply Hb.
Qed.

(** X20. With bins in [[0,255]] and a sensitivity that is not negative,
    the beat factor is at most [1 + beatSensitivity]; it is 1 when the
    first twenty bins are silent. *)
Theorem beatFactor_at_most (a : AnalyserNode) (s : VisualSettings) :
  ((forall i, (0 <= byteFrequencyData a i <= 255)%Z) ->
   0 <= beatSensitivity s ->
   beatFactor (Some a) s <= 1 + beatSensitivity s) /\
  ((forall i, (i < 20)%nat -> byteFrequencyData a i = 0%Z) ->
   beatFactor (Some a) s == 1).
Proof.
  split.
  - intros Hb Hs. rewrite beatFactor_average.
    pose proof (averageOfFirst20_at_most a Hb) as Hmax.
    pose proof (averageOfFirst20_nonneg a Hb) as Hmin.
    assert (Hd : averageOfFirst20 a / 255 <= 1)
      by (apply Qle_shift_div_r; [reflexivity | lra]).
    assert (Hd0 : 0 <= averageOfFirst20 a / 255)
      by (apply Qle_shift_div_l; [reflexivity | lra]).
    set (v := averageOfFirst20 a / 255) in *. nra.
  - intro Hsilent. rewrite beatFactor_average.
    assert (E : averageOfFirst20 a == 0).
    { unfold averageOfFirst20.
      assert (El : map (fun i => inject_Z (byteFrequencyData a i)) (seq 0 20)
                   = map (fun _ => 0) (seq 0 20)).
      { apply map_ext_in. intros i Hi. apply in_seq in Hi.
        rewrite Hsilent by lia. reflexivity. }
      rewrite El. reflexivity. }
    rewrite E. field.
Qed.

(** The theorem at the sample analyser. *)
Lemma beatFactor_at_most_witness :
  beatFactor (Some sampleAnalyser) sampleSettings
  <= 1 + beatSensitivity sampleSettings.
Proof.
  refine (proj1 (beatFactor_at_most sampleAnalyser sampleSettings) _ _).
  - intro i. simpl. lia.
  - q_eval.
Defined.

Lemma bars_from_lookup (d : list Z) (c : string) (h bw bf : Q) (n : nat) :
  forall (i : nat) (barX : Q) (k : nat),
    (k < n)%nat ->
    exists x,
      bars_from d c h bw bf i barX n !! k
      = Some (DrawBar c x
                (h - elem d (i + k) / 255 * (h / 3) * bf) bw
                (elem d (i + k) / 255 * (h / 3) * bf)) /\
      x == barX + inject_Z (Z.of_nat k) * (bw + 1).
Proof.
  induction n as [|n IH]; intros i barX k Hk; [lia|].
  destruct k as [|k].
  - exists barX. cbn [bars_from]. rewrite Nat.add_0_r. split; [reflexivity|].
    simpl. ring.
  - destruct (IH (S i) (barX + (bw + 1)) k) as (x & E & Hx); [lia|].
    exists x. cbn [bars_from]. split.
    + replace (i + S k)%nat with (S i + k)%nat by lia. exact E.
    + rewrite Hx, Nat2Z.inj_succ. unfold Z.succ. rewrite inject_Z_plus.
      change (inject_Z 1) with 1. ring.
Qed.

Lemma bars_from_length (d : list Z) (c : string) (h bw bf : Q) (n : nat) :
  forall i barX, length (bars_from d c h bw bf i barX n) = n.
Proof.
  induction n as [|n IH]; intros i barX; simpl; [reflexivity|].
  now rewrite IH.
Qed.

(** X21. With an analyser attached, a frame draws 128 bars, one for each
    bin; bar [k] starts at [k * (barWidth + 1)] with
    [barWidth = width / 128 * 2.5] and has the height
    [bin k / 255 * (height / 3) * beatFactor]; on a canvas of positive
    width the bars from the 53rd on (index 52) start at or beyond the
    right edge.  Without an analyser no bar is drawn. *)
Theorem audioBars_layout (r : Refs) (s : VisualSettings) (bf : Q) :
  (analyserRef r = None -> audioBars r s bf = []) /\
  (forall a, analyserRef r = Some a ->
     length (audioBars r s bf) = 128%nat /\
     forall k, (k < 128)%nat ->
       let barWidth := width r / 128 * 2.5 in
       let barHeight :=
         inject_Z (byteFrequencyData a k) / 255 * (height r / 3) * bf in
       exists x,
         audioBars r s bf !! k
         = Some (DrawBar (secondaryColor s) x (height r - barHeight)
                   (width r / inject_Z (Z.of_nat (frequencyBinCount a)) * 2.5)
                   barHeight) /\
         x == inject_Z (Z.of_nat k) * (barWidth + 1) /\
         (0 < width r -> (52 <= k)%nat -> width r <= x)).
Proof.
  split.
  - intro E. unfold audioBars. now rewrite E.
  - intros a E. unfold audioBars. rewrite E. cbv zeta. split.
    + apply bars_from_length.
    + intros k Hk.
      destruct (bars_from_lookup
                  (getByteFrequencyData a (frequencyBinCount a))
                  (secondaryColor s) (height r)
                  (width r / inject_Z (Z.of_nat (frequencyBinCount a)) * 2.5)
                  bf (frequencyBinCount a) 0%nat 0 k Hk) as (x & Ex & Hx).
      exists x. rewrite Nat.add_0_l, dataArray_defined in Ex by exact Hk.
      split; [exact Ex|].
      assert (Ew : width r / inject_Z (Z.of_nat (frequencyBinCount a)) * 2.5
                   == width r / 128 * 2.5) by reflexivity.
      rewrite Ew in Hx. split; [rewrite Hx; ring|].
      intros Hw Hk52. rewrite Hx.
      assert (Hq : 52 <= inject_Z (Z.of_nat k)).
      { change 52 with (inject_Z 52). rewrite <- Zle_Qle. lia. }
      assert (Ed : width r / 128 * 128 == width r) by field.
      set (q := inject_Z (Z.of_nat k)) in *. clearbody q.
      set (u := width r / 128) in *. clearbody u.
      nra.
Qed.

(** The theorem for bar 60 of the sample frame. *)
Lemma audioBars_layout_witness :
  length (audioBars sampleRefs sampleSettings 1) = 128%nat.
Proof.
  exact (proj1 (proj2 (audioBars_layout sampleRefs sampleSettings 1)
                  sampleAnalyser eq_refl)).
Defined.

(** ** Recording *)







(** ** Manual synchronisation *)

(** X23. With an audio element, [markCurrentLine] fails exactly on the
    empty lyric sequence, where it writes the end time of a last line
    that does not exist; on any other sequence it returns, and keeps
    the number of lines.  Without an audio element it changes nothing. *)
Theorem markCurrentLine_outcome (a : App.t) :
  App.markCurrentLine None a = Ok a /\
  (forall now,
     (App.markCurrentLine (Some now) a = TypeError <-> App.lyrics a = []) /\
     (forall a', App.markCurrentLine (Some now) a = Ok a' ->
                 length (App.lyrics a') = length (App.lyrics a))).
Proof.
  split; [reflexivity|]. intro now. unfold App.markCurrentLine. cbv zeta.
  set (newLyrics :=
         if (App.currentSyncIndex a <? length (App.lyrics a))%nat
         then if (0 <? App.currentSyncIndex a)%nat
              then alter (set_endTime now) (App.currentSyncIndex a - 1)%nat
                     (alter (set_startTime now) (App.currentSyncIndex a)
                        (App.lyrics a))
              else alter (set_startTime now) (App.currentSyncIndex a)
                     (App.lyrics a)
         else App.lyrics a).
  assert (Hlen : length newLyrics = length (App.lyrics a)).
  { subst newLyrics.
    repeat match goal with
           | |- context [if ?b then _ else _] => destruct b
           end; rewrite ?length_alter; reflexivity. }
  destruct (Z.ltb_spec (Z.of_nat (App.currentSyncIndex a))
              (Z.of_nat (length (App.lyrics a)) - 1)) as [Hlt|Hge].
  - split.
    + split; [discriminate|]. intro E. rewrite E in Hlt. simpl in Hlt. lia.
    + intros a' E. injection E as <-. exact Hlen.
  - destruct (length newLyrics) as [|last] eqn:El.
    + split.
      * split; [|reflexivity]. intros _.
        destruct (App.lyrics a); [reflexivity | simpl in Hlen; lia].
      * discriminate.
    + split.
      * split; [discriminate|]. intro E. rewrite E in Hlen. discriminate.
      * intros a' E. injection E as <-. cbn [App.lyrics].
        rewrite length_alter. lia.
Qed.

Lemma alter_middle {A} (f : A -> A) (l1 : list A) (x : A) (l2 : list A) :
  alter f (length l1) (l1 ++ x :: l2) = l1 ++ f x :: l2.
Proof.
  rewrite alter_app_r_alt by lia. now rewrite Nat.sub_diag.
Qed.

Lemma alter_after_middle {A} (f : A -> A) (l1 : list A) (x y : A)
    (l2 : list A) :
  alter f (S (length l1)) (l1 ++ x :: y :: l2) = l1 ++ x :: f y :: l2.
Proof.
  rewrite alter_app_r_alt by lia.
  replace (S (length l1) - length l1)%nat with 1%nat by lia. reflexivity.
Qed.

Lemma mark_first (cur : LyricLine) (post : list LyricLine) (now : Q)
    (src : option string) :
  App.markCurrentLine (Some now) (App.mk (cur :: post) 0 true src)
  = match post with
    | [] => Ok (App.mk [set_endTime (now + 5) (set_startTime now cur)]
                  0 false src)
    | _ :: _ => Ok (App.mk (set_startTime now cur :: post) 1 true src)
    end.
Proof.
  unfold App.markCurrentLine. cbn [App.currentSyncIndex App.lyrics
    App.showSyncOverlay App.audioSrc].
  destruct post as [|q post]; [reflexivity|].
  replace (Z.of_nat 0 <? Z.of_nat (length (cur :: q :: post)) - 1)%Z with true
    by (symmetry; apply Z.ltb_lt; simpl length; lia).
  reflexivity.
Qed.

Lemma mark_next (done : list LyricLine) (p cur : LyricLine)
    (post : list LyricLine) (now : Q) (src : option string) :
  App.markCurrentLine (Some now)
    (App.mk (done ++ p :: cur :: post) (S (length done)) true src)
  = match post with
    | [] =>
        Ok (App.mk (done ++ [set_endTime now p;
                             set_endTime (now + 5) (set_startTime now cur)])
              (S (length done)) false src)
    | _ :: _ =>
        Ok (App.mk (done ++ set_endTime now p :: set_startTime now cur :: post)
              (S (length done) + 1) true src)
    end.
Proof.
  unfold App.markCurrentLine. cbn [App.currentSyncIndex App.lyrics
    App.showSyncOverlay App.audioSrc].
  replace (S (length done) <? length (done ++ p :: cur :: post))%nat with true
    by (symmetry; apply Nat.ltb_lt; rewrite length_app; simpl; lia).
  cbn [Nat.ltb Nat.leb]. rewrite alter_after_middle.
  replace (S (length done) - 1)%nat with (length done) by lia.
  rewrite alter_middle.
  destruct post as [|q post].
  - replace (Z.of_nat (S (length done))
             <? Z.of_nat (length (done ++ [p; cur])) - 1)%Z with false
      by (symmetry; apply Z.ltb_ge; rewrite length_app; simpl; lia).
    rewrite length_app. cbn [length].
    replace (length done + 2)%nat with (S (S (length done))) by lia.
    rewrite alter_after_middle. reflexivity.
  - replace (Z.of_nat (S (length done))
             <? Z.of_nat (length (done ++ p :: cur :: q :: post)) - 1)%Z
      with true
      by (symmetry; apply Z.ltb_lt; rewrite length_app; simpl; lia).
    reflexivity.
Qed.

Lemma press_step (now : Q) (rest : list Q) (a a' : App.t) :
  App.markCurrentLine (Some now) a = Ok a' ->
  App.showSyncOverlay a = true ->
  App.pressSpace (now :: rest) a = App.pressSpace rest a'.
Proof.
  intros Hmark Hov. cbn [App.pressSpace]. unfold App.handleKeyDown.
  rewrite Hov. cbn [andb String.eqb Ascii.eqb Bool.eqb orb].
  now rewrite Hmark.
Qed.

Lemma sync_from (post : list LyricLine) :
  forall (done : list LyricLine) (p cur : LyricLine) (now : Q) (ts : list Q)
         (src : option string),
    length ts = length post ->
    App.pressSpace (now :: ts)
      (App.mk (done ++ p :: cur :: post) (S (length done)) true src)
    = Ok (App.mk (done ++ set_endTime now p :: retime (cur :: post) (now :: ts))
            (S (length done) + length post) false src).
Proof.
  induction post as [|q post IH]; intros done p cur now ts src Hlen.
  - destruct ts; [|discriminate].
    rewrite (press_step now [] _ _ (mark_next done p cur [] now src) eq_refl).
    cbn [App.pressSpace retime length]. rewrite Nat.add_0_r. reflexivity.
  - destruct ts as [|t ts]; [discriminate|]. injection Hlen as Hlen.
    rewrite (press_step now (t :: ts) _ _
               (mark_next done p cur (q :: post) now src) eq_refl).
    replace (done ++ set_endTime now p :: set_startTime now cur :: q :: post)
      with ((done ++ [set_endTime now p])
              ++ set_startTime now cur :: q :: post)
      by (rewrite <- app_assoc; reflexivity).
    replace (S (length done) + 1)%nat
      with (S (length (done ++ [set_endTime now p])))
      by (rewrite length_app; simpl; lia).
    rewrite (IH _ _ _ t ts src Hlen).
    rewrite <- app_assoc, length_app. cbn [retime length app].
    do 2 f_equal. lia.
Qed.

Lemma retime_lookup (ls : list LyricLine) :
  forall (ts : list Q) (i : nat) (l : LyricLine) (t : Q),
    ls !! i = Some l -> ts !! i = Some t ->
    retime ls ts !! i
    = Some (set_endTime (default (t + 5) (ts !! S i)) (set_startTime t l)).
Proof.
  induction ls as [|l0 ls IH]; intros ts i l t Hl Ht; [discriminate|].
  destruct ts as [|t0 ts]; [discriminate|].
  destruct i as [|i].
  - injection Hl as <-. injection Ht as <-. cbn. now destruct ts.
  - cbn in Hl, Ht. cbn [retime]. cbn. now apply IH.
Qed.

Lemma retime_length (ls : list LyricLine) :
  forall ts, length ts = length ls -> length (retime ls ts) = length ls.
Proof.
  induction ls as [|l ls IH]; intros [|t ts] H; try discriminate;
    [reflexivity|].
  cbn. f_equal. apply IH. now injection H.
Qed.

(** X24. Manual synchronisation, from [startSyncMode] to the last mark:
    with one press of the space bar per line, at the times [ts], line
    [i] keeps its id, text and translation, starts at mark [i] and ends
    at mark [i+1], the last line five seconds after its own mark; the
    overlay is closed.  The marked lines thus follow each other without
    gap or overlap. *)
Theorem manual_sync (ls : list LyricLine) (ts : list Q) (src : string) :
  src <> EmptyString -> ls <> [] -> length ts = length ls ->
  exists final,
    App.pressSpace ts
      (App.startSyncMode (App.mk ls 7 false (Some src))) = Ok final /\
    App.showSyncOverlay final = false /\
    length (App.lyrics final) = length ls /\
    (forall i l t,
       ls !! i = Some l -> ts !! i = Some t ->
       exists l',
         App.lyrics final !! i = Some l' /\
         id l' = id l /\ text l' = text l /\ translation l' = translation l /\
         startTime l' = t /\
         endTime l' = default (t + 5) (ts !! S i)).
Proof.
  intros Hsrc Hne Hlen.
  assert (Htruthy : truthy (Some src) = true).
  { unfold truthy. apply negb_true_iff. now apply String.eqb_neq. }
  assert (Hrun : App.pressSpace ts (App.mk ls 0 true (Some src))
                 = Ok (App.mk (retime ls ts) (length ls - 1) false (Some src))).
  { destruct ls as [|cur post]; [now contradiction Hne|].
    destruct ts as [|now ts]; [discriminate|]. injection Hlen as Hlen.
    destruct post as [|q post].
    - rewrite (press_step now ts _ _
                 (mark_first cur [] now (Some src)) eq_refl).
      destruct ts; [|discriminate]. reflexivity.
    - rewrite (press_step now ts _ _
                 (mark_first cur (q :: post) now (Some src)) eq_refl).
      destruct ts as [|t ts]; [discriminate|]. injection Hlen as Hlen.
      pose proof (sync_from post [] (set_startTime now cur) q t ts (Some src)
                    Hlen) as H.
      cbn [app length] in H. rewrite H. cbn [retime length].
      do 2 f_equal; lia. }
  exists (App.mk (retime ls ts) (length ls - 1) false (Some src)).
  unfold App.startSyncMode. cbn [App.audioSrc App.lyrics App.showSyncOverlay].
  rewrite Htruthy.
  split; [exact Hrun|]. split; [reflexivity|].
  split; [now apply retime_length|].
  intros i l t Hl Ht. rewrite (retime_lookup ls ts i l t Hl Ht).
  eexists. split; [reflexivity|]. cbn. auto.
Qed.

(** The theorem for the three sample lines, marked at 1, 3.5 and 7. *)
Lemma manual_sync_witness :
  exists final,
    App.pressSpace [1; 3.5; 7]
      (App.startSyncMode (App.mk (App.lyrics sampleApp) 7 false
                            (Some "blob:song"%string))) = Ok final /\
    App.showSyncOverlay final = false.
Proof.
  destruct (manual_sync (App.lyrics sampleApp) [1; 3.5; 7] "blob:song")
    as (final & H1 & H2 & _); [discriminate | discriminate | reflexivity |].
  exists final. auto.
Defined.

(** ** The generation service *)

Lemma str_or_empty (v : string) : str_or v EmptyString = v.
Proof.
  unfold str_or. destruct (String.eqb_spec v EmptyString) as [->|_];
    reflexivity.
Qed.

Lemma translationMap_from (translations : list (string * string)) :
  forall (m : gmap string string) (k : string),
    k ∉ map fst translations ->
    fold_left (fun m t => <[t.1 := t.2]> m) translations m !! k = m !! k.
Proof.
  induction translations as [|[k0 v0] rest IH]; intros m k Hk; [reflexivity|].
  cbn [fold_left map fst] in *. apply not_elem_of_cons in Hk as [Hne Hk].
  rewrite IH by exact Hk. cbn. now rewrite lookup_insert_ne.
Qed.

Lemma translationMap_last (pre post : list (string * string)) (k v : string) :
  k ∉ map fst post ->
  translationMap (pre ++ (k, v) :: post) !! k = Some v.
Proof.
  intro Hk. unfold translationMap. rewrite fold_left_app. cbn [fold_left].
  rewrite translationMap_from by exact Hk. cbn. apply lookup_insert_eq.
Qed.

(** X25. Translating never touches the timing: the lines keep their
    number, order, ids, start and end times and texts, whatever the
    service answers, and a failed call returns them unchanged.  After a
    successful call every line has a translation: the last one the
    answer gives for its id, and the empty string when the answer has
    none. *)
Theorem translate_keeps_timing (response : option (list (string * string)))
    (lyrics : list LyricLine) :
  let out := translateLyricsAI response lyrics in
  (map id out = map id lyrics /\
   map startTime out = map startTime lyrics /\
   map endTime out = map endTime lyrics /\
   map text out = map text lyrics) /\
  (response = None -> out = lyrics) /\
  (forall pre post k v i line,
     response = Some (pre ++ (k, v) :: post) ->
     k ∉ map fst post ->
     lyrics !! i = Some line -> id line = k ->
     out !! i = Some (set_translation (Some v) line)) /\
  (forall translations i line,
     response = Some translations ->
     id line ∉ map fst translations ->
     lyrics !! i = Some line ->
     out !! i = Some (set_translation (Some EmptyString) line)).
Proof.
  cbv zeta. split; [|split; [|split]].
  - destruct response as [translations|]; cbn [translateLyricsAI]; [|auto].
    rewrite !List.map_map. cbn. auto.
  - intros ->. reflexivity.
  - intros pre post k v i line -> Hk Hi Hid. cbn [translateLyricsAI].
    change (map ?f lyrics) with (f <$> lyrics).
    rewrite list_lookup_fmap, Hi. cbn. rewrite Hid.
    rewrite translationMap_last by exact Hk. cbn. now rewrite str_or_empty.
  - intros translations i line -> Hk Hi. cbn [translateLyricsAI].
    change (map ?f lyrics) with (f <$> lyrics).
    rewrite list_lookup_fmap, Hi. cbn.
    unfold translationMap. rewrite translationMap_from by exact Hk.
    rewrite lookup_empty. reflexivity.
Qed.

(** The theorem for an answer that translates the second sample line
    twice: the later entry is the one kept. *)
Lemma translate_keeps_timing_witness :
  translateLyricsAI (Some [("2", "zwei"); ("2", "deux")]%string)
    (App.lyrics sampleApp) !! 1%nat
  = Some {| id := "2"; startTime := 4.1; endTime := 8; text := "two";
            translation := Some "deux"%string |}.
Proof.
  refine (proj1 (proj2 (proj2 (translate_keeps_timing
            (Some [("2", "zwei"); ("2", "deux")]%string)
            (App.lyrics sampleApp))))
            [("2", "zwei")]%string [] "2"%string "deux"%string 1%nat _
            eq_refl _ eq_refl eq_refl).
  apply not_elem_of_nil.
Defined.

Lemma string_of_index_inj (i j : nat) :
  string_of_index i = string_of_index j -> i = j.
Proof.
  unfold string_of_index. intro E.
  assert (Eu : Some (Nat.to_uint i) = Some (Nat.to_uint j)).
  { rewrite <- !NilEmpty.usu. now rewrite E. }
  injection Eu as Eu.
  rewrite <- (Unsigned.of_to i), <- (Unsigned.of_to j). now rewrite Eu.
Qed.

(** X26. The lines that [smartTimingAI] builds from an answer carry
    pairwise different ids, [line-0], [line-1], ..., so that a later
    translation by id finds each line; they keep the texts and times of
    the answer, in its order.  A failed call gives no line, and
    [handleSmartTiming] then keeps the lyrics it had: it never replaces
    them by an empty sequence. *)
Theorem smartTiming_ids (response : option (list TimedLine)) :
  NoDup (map id (smartTimingAI response)) /\
  (forall lines i l,
     response = Some lines -> lines !! i = Some l ->
     smartTimingAI response !! i
     = Some {| id := "line-" ++ string_of_index i;
               startTime := tl_startTime l;
               endTime := tl_endTime l;
               text := tl_text l;
               translation := Some EmptyString |}) /\
  length (smartTimingAI response) = length (default [] response) /\
  smartTimingAI None = [] /\
  (forall audio lyrics,
     lyrics <> [] -> handleSmartTiming audio response lyrics <> []).
Proof.
  split; [|split; [|split; [|split]]].
  - destruct response as [lines|]; cbn [smartTimingAI]; [|constructor].
    change (map id ?l) with (id <$> l).
    apply NoDup_alt. intros i j x Hi Hj.
    rewrite list_lookup_fmap, list_lookup_imap in Hi, Hj.
    destruct (lines !! i) as [li|]; [|discriminate].
    destruct (lines !! j) as [lj|]; [|discriminate].
    cbn in Hi, Hj. rewrite <- Hj in Hi. injection Hi as Hi.
    apply string_of_index_inj. exact Hi.
  - intros lines i l -> Hl. cbn [smartTimingAI].
    rewrite list_lookup_imap, Hl. reflexivity.
  - destruct response as [lines|]; cbn [smartTimingAI default];
      [apply length_imap | reflexivity].
  - reflexivity.
  - intros audio lyrics Hne. unfold handleSmartTiming.
    destruct audio; [|exact Hne].
    cbv zeta. destruct (Nat.ltb_spec 0 (length (smartTimingAI response)));
      [|exact Hne].
    destruct (smartTimingAI response); [simpl in *; lia | discriminate].
Qed.

(** The theorem for a song that has its lyrics and an answer without a
    line. *)
Lemma smartTiming_ids_witness :
  handleSmartTiming true (Some []) (App.lyrics sampleApp) <> [].
Proof.
  refine (proj2 (proj2 (proj2 (proj2 (smartTiming_ids (Some []))))) true
                (App.lyrics sampleApp) _).
  discriminate.
Defined.

(** ** The pose of a line that leaves *)

Lemma easeInOutSine_unit (M : Platform) (x : Q) :
  -1 <= Math_cos M (Math_PI M * x) -> Math_cos M (Math_PI M * x) <= 1 ->
  0 <= easeInOutSine M x /\ easeInOutSine M x <= 1.
Proof.
  intros Hlo Hhi. unfold easeInOutSine.
  set (c := Math_cos M (Math_PI M * x)) in *.
  assert (E : - (c - 1) / 2 == (1 - c) * (1 # 2)) by field.
  rewrite E. split; lra.
Qed.

(** X27. Over the exit phase, at a progress where the platform's cosine
    is within [[-1,1]], whatever the animation type: the opacity is one
    minus the eased progress and stays within [[0,1]], so that clamping
    it changes nothing; the scale stays between 0.7 and 1.3; the line
    moves upwards by 1.5 times the font size at most, never downwards;
    the blur is 4 pixels at most.  Where the cosine is 1, as at
    progress 0, the line is in its resting pose. *)
Theorem exit_pose (M : Platform) (animType : AnimationType)
    (animationSpeed fontSize currentTime progress : Q) :
  -1 <= Math_cos M (Math_PI M * progress) ->
  Math_cos M (Math_PI M * progress) <= 1 ->
  0 <= fontSize ->
  let pose :=
    lineStyle M animType animationSpeed fontSize currentTime exit progress in
  alpha pose == 1 - easeInOutSine M progress /\
  (0 <= alpha pose /\ alpha pose <= 1) /\
  globalAlpha pose == alpha pose /\
  (0.7 <= scale pose /\ scale pose <= 1.3) /\
  (- (fontSize * 1.5) <= yOffset pose /\ yOffset pose <= 0) /\
  (0 <= blurAmount pose /\ blurAmount pose <= 4) /\
  (Math_cos M (Math_PI M * progress) == 1 ->
   alpha pose == 1 /\ scale pose == 1 /\ yOffset pose == 0 /\
   blurAmount pose == 0).
Proof.
  intros Hlo Hhi Hf pose. subst pose.
  destruct (easeInOutSine_unit M progress Hlo Hhi) as [Ht0 Ht1].
  assert (Hrest : Math_cos M (Math_PI M * progress) == 1 ->
                  easeInOutSine M progress == 0).
  { intros Hc. unfold easeInOutSine. rewrite Hc. reflexivity. }
  set (t := easeInOutSine M progress) in *.
  assert (Hclamp : Qmax 0 (Qmin 1 (1 - t)) == 1 - t)
    by (apply clamp_unit; lra).
  destruct animType; unfold globalAlpha; cbn -[easeInOutSine Qmax Qmin];
    fold t; (split; [reflexivity|]); (split; [lra|]);
    (split; [exact Hclamp|]); (split; [lra|]);
    (split; [first [lra | nra]|]); (split; [lra|]);
    intros Hc; specialize (Hrest Hc); split_ands; first [lra | nra].
Qed.

(** The theorem for SLIDE_UP a quarter of the way through the exit. *)
Lemma exit_pose_witness :
  globalAlpha (lineStyle samplePlatform SLIDE_UP 1 60 10.25 exit 0.25)
  == alpha (lineStyle samplePlatform SLIDE_UP 1 60 10.25 exit 0.25).
Proof.
  assert (Hlo : -1 <= Math_cos samplePlatform
                         (Math_PI samplePlatform * 0.25)) by q_eval.
  assert (Hhi : Math_cos samplePlatform
                  (Math_PI samplePlatform * 0.25) <= 1) by q_eval.
  assert (Hf : 0 <= 60) by q_eval.
  exact (proj1 (proj2 (proj2 (exit_pose samplePlatform SLIDE_UP 1 60 10.25
                                0.25 Hlo Hhi Hf)))).
Defined.

(** ** The layout of a line *)

Lemma inject_pred (count i : nat) :
  (i < count)%nat ->
  inject_Z (Z.of_nat (count - 1 - i))
  == inject_Z (Z.of_nat count) - 1 - inject_Z (Z.of_nat i).
Proof.
  intros Hi.
  replace (Z.of_nat (count - 1 - i))
    with (Z.of_nat count + - (1) + - Z.of_nat i)%Z by lia.
  rewrite !inject_Z_plus, !inject_Z_opp. change (inject_Z 1) with 1. ring.
Qed.

(** X28. The sub-lines of a line are laid out symmetrically around the
    anchor of the line: sub-line [i] and sub-line [count - 1 - i] are at
    opposite offsets.  Consecutive sub-lines are 1.2 times the font size
    apart, and the translation is drawn one font size under the last
    sub-line. *)
Theorem sublines_centred (count i : nat) (currentFontSize : Q) :
  (i < count)%nat ->
  subLineY count i currentFontSize
  + subLineY count (count - 1 - i) currentFontSize == 0 /\
  subLineY count (S i) currentFontSize - subLineY count i currentFontSize
  == currentFontSize * 1.2 /\
  transY count currentFontSize - subLineY count (count - 1) currentFontSize
  == currentFontSize.
Proof.
  intros Hi. unfold subLineY, transY. cbv zeta.
  pose proof (inject_pred count i Hi) as E.
  assert (E0 : inject_Z (Z.of_nat (count - 1))
               == inject_Z (Z.of_nat count) - 1).
  { pose proof (inject_pred count 0) as E0.
    rewrite Nat.sub_0_r in E0. rewrite E0 by lia.
    change (inject_Z (Z.of_nat 0)) with 0. ring. }
  assert (E1 : inject_Z (Z.of_nat (S i)) == inject_Z (Z.of_nat i) + 1).
  { rewrite Nat2Z.inj_succ. unfold Z.succ. rewrite inject_Z_plus.
    reflexivity. }
  rewrite E, E0, E1. split_ands; field.
Qed.

(** The theorem for the second of three sub-lines at font size 60. *)
Lemma sublines_centred_witness :
  subLineY 3 1 60 + subLineY 3 (3 - 1 - 1) 60 == 0.
Proof.
  exact (proj1 (sublines_centred 3 1 60 ltac:(lia))).
Defined.

(** X29. The clip rectangle of the REVEAL animation is horizontally
    centred and its lower edge stays at 0.75 times the font size under
    the sub-line, whatever the progress.  Over the enter phase its
    height lies between 0 and 1.5 times the font size and does not
    decrease, from 0 at progress 0 to the whole 1.5 times the font size
    at progress 1: the text is uncovered from the bottom up. *)
Theorem reveal_from_bottom (width currentFontSize ly p q : Q) :
  0 <= p -> p <= q -> q <= 1 -> 0 <= currentFontSize ->
  let clip := revealClip width currentFontSize ly in
  rect_x (clip p) + rect_w (clip p) / 2 == 0 /\
  rect_y (clip p) + rect_h (clip p) == ly + currentFontSize * 0.75 /\
  (0 <= rect_h (clip p) /\ rect_h (clip p) <= rect_h (clip q) /\
   rect_h (clip q) <= currentFontSize * 1.5) /\
  rect_h (clip 0) == 0 /\ rect_h (clip 1) == currentFontSize * 1.5.
Proof.
  intros H0 Hpq H1 Hf clip. subst clip.
  destruct (easeOutCubic_unit p H0 ltac:(lra)) as [Hp0 Hp1].
  destruct (easeOutCubic_unit q ltac:(lra) H1) as [Hq0 Hq1].
  assert (Hmono : easeOutCubic p <= easeOutCubic q).
  { unfold easeOutCubic. simpl.
    pose proof (cube_monotone (1 - q) (1 - p)). lra. }
  assert (E0 : easeOutCubic 0 == 0) by q_eval.
  assert (E1 : easeOutCubic 1 == 1) by q_eval.
  cbn -[easeOutCubic].
  set (a := easeOutCubic p) in *. set (b := easeOutCubic q) in *.
  split_ands.
  - field.
  - field.
  - nra.
  - nra.
  - nra.
  - rewrite E0. ring.
  - rewrite E1. ring.
Qed.

(** The theorem between a quarter and a half of the enter phase. *)
Lemma reveal_from_bottom_witness :
  rect_h (revealClip 1920 60 0 0.25) <= rect_h (revealClip 1920 60 0 0.5).
Proof.
  assert (H0 : 0 <= 0.25) by q_eval.
  assert (Hpq : 0.25 <= 0.5) by q_eval.
  assert (H1 : 0.5 <= 1) by q_eval.
  assert (Hf : 0 <= 60) by q_eval.
  exact (proj1 (proj2 (proj1 (proj2 (proj2
    (reveal_from_bottom 1920 60 0 0.25 0.5 H0 Hpq H1 Hf)))))).
Defined.
